(** * Babylon.js: WebAudio engine (audio v2) and IBL-shadows spatial blur pass

    A shallow embedding of

    - [packages/dev/core/src/Audio/v2/webAudio/webAudioEngine.ts]
      (class [_WebAudioEngine], [CreateAudioEngineAsync], [formatMimeTypeMap]);
    - [packages/dev/core/src/Rendering/IBLShadows/iblShadowsSpatialBlurPass.ts]
      (class [_IblShadowsSpatialBlurPass]);

    followed by the properties proved about them.

    Conventions.  A JavaScript [number] is a binary64 float ([PrimFloat.float]);
    [===] on numbers is IEEE equality ([PrimFloat.eqb]).  Objects owned by the
    browser or by engine code outside these two files (audio contexts, promises,
    timers, sound instances, post-processes, textures) are handles ([nat]).
    Every call that leaves the modelled class is appended, in program order, to
    a call log kept in the environment, so that "what was called, and in which
    order" can be stated.  An [async] function is a resumption: it runs up to
    its next [await] and hands back the continuation. *)

From Stdlib Require Import PrimFloat.
From stdpp Require Import gmap strings.

Set Warnings "-register-all".

(* ================================================================== *)
(** * JavaScript values shared by both classes *)
(* ================================================================== *)

Module Js.

(** [number] and [===] on numbers. *)
Definition number : Set := float.
Definition strict_eq (x y : number) : bool := PrimFloat.eqb x y.

(** What an [await] observes when the awaited promise settles.  The payload
    [v] is whatever the promise was fulfilled with. *)
Inductive Settlement (V : Type) : Type :=
| Fulfilled (v : V)
| Rejected.
Arguments Fulfilled {V} v.
Arguments Rejected {V}.

(** An [async] function body over a mutable world [W].  [Returned a]: the
    body ran to its end and the function's promise is resolved with [a].
    [Threw]: an exception escaped, the function's promise is rejected.
    [Diverged]: a synchronous loop of the body never ends.
    [Awaiting what k]: the body is suspended at [await]; when the awaited
    promise settles with [o] the body continues as [k o] in the world of
    that later moment. *)
Inductive Async (W Aw V A : Type) : Type :=
| Returned (a : A)
| Threw
| Diverged
| Awaiting (what : Aw) (k : Settlement V -> W -> Async W Aw V A * W).
Arguments Returned {W Aw V A} a.
Arguments Threw {W Aw V A}.
Arguments Diverged {W Aw V A}.
Arguments Awaiting {W Aw V A} what k.

(** [await f(); rest]: run the callee's resumption to its end, then [rest]. *)
Fixpoint await_call {W Aw V A B} (callee : Async W Aw V A)
    (rest : A -> W -> Async W Aw V B * W) (w : W) : Async W Aw V B * W :=
  match callee with
  | Returned a => rest a w
  | Threw => (Threw, w)
  | Diverged => (Diverged, w)
  | Awaiting what k =>
      (Awaiting what (fun o w' => let '(c, w'') := k o w' in await_call c rest w''), w)
  end.

(** Settle the pending awaits of a call one after the other with [outs];
    the call stays suspended when [outs] runs out first. *)
Fixpoint drive {W Aw V A} (outs : list (Settlement V))
    (a : Async W Aw V A) (w : W) : Async W Aw V A * W :=
  match a, outs with
  | Awaiting _ k, o :: outs' => let '(a', w') := k o w in drive outs' a' w'
  | _, _ => (a, w)
  end.

(** ** [Set<T>] of object references

    ECMAScript keeps the entries of a Set in insertion order in a list
    ([[SetData]]); [delete] overwrites the entry with the marker "empty"
    ([None] here) instead of shifting the list, so that live iterators keep
    their position.  A Set iterator is an index into that list. *)
Section JsSet.
Context {T : Type} `{EqDecision T}.

Definition SetData : Type := list (option T).

Definition is_entry (x : T) (e : option T) : bool :=
  match e with
  | Some y => bool_decide (y = x)
  | None => false
  end.

Definition has (x : T) (s : SetData) : bool := existsb (is_entry x) s.

Definition add (x : T) (s : SetData) : SetData :=
  if has x s then s else s ++ [Some x].

(** Overwrites the first live entry equal to [x]. *)
Fixpoint delete (x : T) (s : SetData) : SetData :=
  match s with
  | [] => []
  | e :: s' => if is_entry x e then None :: s' else e :: delete x s'
  end.

(** The live entries, in insertion order. *)
Definition elements (s : SetData) : list T := omap id s.

(** [it.next()] for an iterator standing at [index]: skip the emptied
    entries; [None] is [{done: true}]. *)
Fixpoint scan (rest : SetData) (index : nat) : option T * nat :=
  match rest with
  | [] => (None, index)
  | None :: rest' => scan rest' (S index)
  | Some x :: _ => (Some x, S index)
  end.

Definition iter_next (s : SetData) (index : nat) : option T * nat :=
  scan (drop index s) index.
End JsSet.

End Js.

(* ================================================================== *)
(** * webAudioEngine.ts *)
(* ================================================================== *)

Module WebAudioEngine.
Import Js.
#[local] Open Scope string_scope.

(** Handles of objects that live outside the class. *)
Definition ContextId : Set := nat.
Definition PromiseId : Set := nat.
Definition TimerId : Set := nat.
Definition Instance : Set := nat.

(** [IWebAudioEngineOptions]; an absent property is [None]. *)
Module Options.
Record t : Set := {
  audioContext : option ContextId;
  resumeOnInteraction : option bool;
  resumeOnPause : option bool;
  resumeOnPauseRetryInterval : option number;
}.
(** The object literal [{}]. *)
Definition empty : t :=
  {| audioContext := None; resumeOnInteraction := None;
     resumeOnPause := None; resumeOnPauseRetryInterval := None |}.
End Options.

(** The double-quote character (code 34), for the MIME types that carry a
    codec. *)
Definition dquote : string :=
  String (Ascii.Ascii false true false false false true false false) EmptyString.

Definition formatMimeTypeMap : gmap string string :=
  list_to_map [
    ("aac", "audio/aac");
    ("ac3", "audio/ac3");
    ("flac", "audio/flac");
    ("m4a", "audio/mp4");
    ("mp3", "audio/mpeg; codecs=" ++ dquote ++ "mp3" ++ dquote);
    ("mp4", "audio/mp4");
    ("ogg", "audio/ogg; codecs=" ++ dquote ++ "vorbis" ++ dquote);
    ("wav", "audio/wav");
    ("webm", "audio/webm; codecs=" ++ dquote ++ "vorbis" ++ dquote)
  ].

(** ** The environment of the engine *)

Inductive EventTarget : Set :=
| Document
| Context (c : ContextId).

(** Calls that leave the class, as they appear in the source. *)
Inductive Call : Set :=
| NewAudioContext (c : ContextId)
| AddEventListener (target : EventTarget) (type : string)
| RemoveEventListener (target : EventTarget) (type : string)
| ContextResume (c : ContextId) (p : PromiseId)
| ContextSuspend (c : ContextId) (p : PromiseId)
| ContextClose (c : ContextId)
| ClearInterval (id : option TimerId)
| SetInterval (id : TimerId) (ms : number)
| CanPlayType (mimeType : string)
| CreateMainAudioOutputAsync
| CreateMainAudioBusAsync (name : string)
| MainOutputSetVolume (value : number)
| InstancePlay (instance : Instance)
| NotifyObservers (state : string)
| ResolveIsReadyPromise
| SuperDispose
| SuperAddMainBus (mainBus : nat)
| SuperAddSound (sound : nat)
| SuperAddSoundInstance (soundInstance : Instance).

(** The browser, as far as the engine can see it. *)
Record Platform : Type := {
  contextState : gmap ContextId string;  (* [AudioContext.state] of each context *)
  canPlayType : string -> string;        (* [HTMLMediaElement.canPlayType] *)
  intervals : gset TimerId;              (* the timers set and not yet cleared *)
  clickListener : bool;                  (* [_onUserInteraction] is on [document] *)
  stateChangeListener : bool;            (* [_onAudioContextStateChange] is on the context *)
  nextHandle : nat;                      (* the next fresh handle *)
  calls : list Call;                     (* the calls made so far, oldest first *)
}.

(** ** The fields of [_WebAudioEngine] *)

(** [_WebAudioMainOutput], of which the engine uses the [volume] property. *)
Record MainOutput : Set := { mo_volume : number }.

Inductive PromiseState : Set := Pending | Resolved.

Record Engine : Type := {
  _audioContextStarted : bool;
  _resumePromise : option PromiseId;
  _mainOutput : option MainOutput;
  _invalidFormats : gset string;
  _validFormats : gset string;
  _volume : number;
  audioContext : ContextId;
  isReadyPromise : PromiseState;
  _resumeOnInteraction : bool;
  _resumeOnPause : bool;
  _resumeOnPauseRetryInterval : number;
  _resumeOnPauseTimerId : option TimerId;
  _soundInstancesToStartOnNextUserInteraction : SetData (T := Instance);
}.

Record World : Type := { engine : Engine; platform : Platform }.

(** What the awaits of this file wait for, and what they are fulfilled with
    ([None] is [undefined]). *)
Inductive Awaited : Set :=
| AwContextResume (p : PromiseId)
| AwContextSuspend (p : PromiseId)
| AwMainAudioOutput
| AwMainAudioBus.

Definition Payload : Set := option MainOutput.
Definition Task (A : Type) : Type := Async World Awaited Payload A.

(** ** Field assignment

    [with_f v e] is the engine after [this.f = v]; every other field keeps its
    value. *)

Definition with_audioContextStarted v (e : Engine) : Engine :=
  {| _audioContextStarted := v; _resumePromise := _resumePromise e;
     _mainOutput := _mainOutput e; _invalidFormats := _invalidFormats e;
     _validFormats := _validFormats e; _volume := _volume e;
     audioContext := audioContext e; isReadyPromise := isReadyPromise e;
     _resumeOnInteraction := _resumeOnInteraction e;
     _resumeOnPause := _resumeOnPause e;
     _resumeOnPauseRetryInterval := _resumeOnPauseRetryInterval e;
     _resumeOnPauseTimerId := _resumeOnPauseTimerId e;
     _soundInstancesToStartOnNextUserInteraction := _soundInstancesToStartOnNextUserInteraction e |}.

Definition with_resumePromise v (e : Engine) : Engine :=
  {| _audioContextStarted := _audioContextStarted e; _resumePromise := v;
     _mainOutput := _mainOutput e; _invalidFormats := _invalidFormats e;
     _validFormats := _validFormats e; _volume := _volume e;
     audioContext := audioContext e; isReadyPromise := isReadyPromise e;
     _resumeOnInteraction := _resumeOnInteraction e;
     _resumeOnPause := _resumeOnPause e;
     _resumeOnPauseRetryInterval := _resumeOnPauseRetryInterval e;
     _resumeOnPauseTimerId := _resumeOnPauseTimerId e;
     _soundInstancesToStartOnNextUserInteraction := _soundInstancesToStartOnNextUserInteraction e |}.

Definition with_mainOutput v (e : Engine) : Engine :=
  {| _audioContextStarted := _audioContextStarted e;
     _resumePromise := _resumePromise e; _mainOutput := v;
     _invalidFormats := _invalidFormats e; _validFormats := _validFormats e;
     _volume := _volume e; audioContext := audioContext e;
     isReadyPromise := isReadyPromise e;
     _resumeOnInteraction := _resumeOnInteraction e;
     _resumeOnPause := _resumeOnPause e;
     _resumeOnPauseRetryInterval := _resumeOnPauseRetryInterval e;
     _resumeOnPauseTimerId := _resumeOnPauseTimerId e;
     _soundInstancesToStartOnNextUserInteraction := _soundInstancesToStartOnNextUserInteraction e |}.

Definition with_invalidFormats v (e : Engine) : Engine :=
  {| _audioContextStarted := _audioContextStarted e;
     _resumePromise := _resumePromise e; _mainOutput := _mainOutput e;
     _invalidFormats := v; _validFormats := _validFormats e;
     _volume := _volume e; audioContext := audioContext e;
     isReadyPromise := isReadyPromise e;
     _resumeOnInteraction := _resumeOnInteraction e;
     _resumeOnPause := _resumeOnPause e;
     _resumeOnPauseRetryInterval := _resumeOnPauseRetryInterval e;
     _resumeOnPauseTimerId := _resumeOnPauseTimerId e;
     _soundInstancesToStartOnNextUserInteraction := _soundInstancesToStartOnNextUserInteraction e |}.

Definition with_validFormats v (e : Engine) : Engine :=
  {| _audioContextStarted := _audioContextStarted e;
     _resumePromise := _resumePromise e; _mainOutput := _mainOutput e;
     _invalidFormats := _invalidFormats e; _validFormats := v;
     _volume := _volume e; audioContext := audioContext e;
     isReadyPromise := isReadyPromise e;
     _resumeOnInteraction := _resumeOnInteraction e;
     _resumeOnPause := _resumeOnPause e;
     _resumeOnPauseRetryInterval := _resumeOnPauseRetryInterval e;
     _resumeOnPauseTimerId := _resumeOnPauseTimerId e;
     _soundInstancesToStartOnNextUserInteraction := _soundInstancesToStartOnNextUserInteraction e |}.

Definition with_volume v (e : Engine) : Engine :=
  {| _audioContextStarted := _audioContextStarted e;
     _resumePromise := _resumePromise e; _mainOutput := _mainOutput e;
     _invalidFormats := _invalidFormats e; _validFormats := _validFormats e;
     _volume := v; audioContext := audioContext e;
     isReadyPromise := isReadyPromise e;
     _resumeOnInteraction := _resumeOnInteraction e;
     _resumeOnPause := _resumeOnPause e;
     _resumeOnPauseRetryInterval := _resumeOnPauseRetryInterval e;
     _resumeOnPauseTimerId := _resumeOnPauseTimerId e;
     _soundInstancesToStartOnNextUserInteraction := _soundInstancesToStartOnNextUserInteraction e |}.

Definition with_isReadyPromise v (e : Engine) : Engine :=
  {| _audioContextStarted := _audioContextStarted e;
     _resumePromise := _resumePromise e; _mainOutput := _mainOutput e;
     _invalidFormats := _invalidFormats e; _validFormats := _validFormats e;
     _volume := _volume e; audioContext := audioContext e; isReadyPromise := v;
     _resumeOnInteraction := _resumeOnInteraction e;
     _resumeOnPause := _resumeOnPause e;
     _resumeOnPauseRetryInterval := _resumeOnPauseRetryInterval e;
     _resumeOnPauseTimerId := _resumeOnPauseTimerId e;
     _soundInstancesToStartOnNextUserInteraction := _soundInstancesToStartOnNextUserInteraction e |}.

Definition with_resumeOnInteraction v (e : Engine) : Engine :=
  {| _audioContextStarted := _audioContextStarted e;
     _resumePromise := _resumePromise e; _mainOutput := _mainOutput e;
     _invalidFormats := _invalidFormats e; _validFormats := _validFormats e;
     _volume := _volume e; audioContext := audioContext e;
     isReadyPromise := isReadyPromise e; _resumeOnInteraction := v;
     _resumeOnPause := _resumeOnPause e;
     _resumeOnPauseRetryInterval := _resumeOnPauseRetryInterval e;
     _resumeOnPauseTimerId := _resumeOnPauseTimerId e;
     _soundInstancesToStartOnNextUserInteraction := _soundInstancesToStartOnNextUserInteraction e |}.

Definition with_resumeOnPause v (e : Engine) : Engine :=
  {| _audioContextStarted := _audioContextStarted e;
     _resumePromise := _resumePromise e; _mainOutput := _mainOutput e;
     _invalidFormats := _invalidFormats e; _validFormats := _validFormats e;
     _volume := _volume e; audioContext := audioContext e;
     isReadyPromise := isReadyPromise e;
     _resumeOnInteraction := _resumeOnInteraction e; _resumeOnPause := v;
     _resumeOnPauseRetryInterval := _resumeOnPauseRetryInterval e;
     _resumeOnPauseTimerId := _resumeOnPauseTimerId e;
     _soundInstancesToStartOnNextUserInteraction := _soundInstancesToStartOnNextUserInteraction e |}.

Definition with_resumeOnPauseRetryInterval v (e : Engine) : Engine :=
  {| _audioContextStarted := _audioContextStarted e;
     _resumePromise := _resumePromise e; _mainOutput := _mainOutput e;
     _invalidFormats := _invalidFormats e; _validFormats := _validFormats e;
     _volume := _volume e; audioContext := audioContext e;
     isReadyPromise := isReadyPromise e;
     _resumeOnInteraction := _resumeOnInteraction e;
     _resumeOnPause := _resumeOnPause e; _resumeOnPauseRetryInterval := v;
     _resumeOnPauseTimerId := _resumeOnPauseTimerId e;
     _soundInstancesToStartOnNextUserInteraction := _soundInstancesToStartOnNextUserInteraction e |}.

Definition with_resumeOnPauseTimerId v (e : Engine) : Engine :=
  {| _audioContextStarted := _audioContextStarted e;
     _resumePromise := _resumePromise e; _mainOutput := _mainOutput e;
     _invalidFormats := _invalidFormats e; _validFormats := _validFormats e;
     _volume := _volume e; audioContext := audioContext e;
     isReadyPromise := isReadyPromise e;
     _resumeOnInteraction := _resumeOnInteraction e;
     _resumeOnPause := _resumeOnPause e;
     _resumeOnPauseRetryInterval := _resumeOnPauseRetryInterval e;
     _resumeOnPauseTimerId := v;
     _soundInstancesToStartOnNextUserInteraction := _soundInstancesToStartOnNextUserInteraction e |}.

Definition with_soundInstancesToStartOnNextUserInteraction v (e : Engine) : Engine :=
  {| _audioContextStarted := _audioContextStarted e;
     _resumePromise := _resumePromise e; _mainOutput := _mainOutput e;
     _invalidFormats := _invalidFormats e; _validFormats := _validFormats e;
     _volume := _volume e; audioContext := audioContext e;
     isReadyPromise := isReadyPromise e;
     _resumeOnInteraction := _resumeOnInteraction e;
     _resumeOnPause := _resumeOnPause e;
     _resumeOnPauseRetryInterval := _resumeOnPauseRetryInterval e;
     _resumeOnPauseTimerId := _resumeOnPauseTimerId e;
     _soundInstancesToStartOnNextUserInteraction := v |}.


(** The same for what the browser keeps. *)

Definition with_contextState v (p : Platform) : Platform :=
  {| contextState := v; canPlayType := canPlayType p; intervals := intervals p;
     clickListener := clickListener p;
     stateChangeListener := stateChangeListener p; nextHandle := nextHandle p;
     calls := calls p |}.

Definition with_canPlayType v (p : Platform) : Platform :=
  {| contextState := contextState p; canPlayType := v;
     intervals := intervals p; clickListener := clickListener p;
     stateChangeListener := stateChangeListener p; nextHandle := nextHandle p;
     calls := calls p |}.

Definition with_intervals v (p : Platform) : Platform :=
  {| contextState := contextState p; canPlayType := canPlayType p;
     intervals := v; clickListener := clickListener p;
     stateChangeListener := stateChangeListener p; nextHandle := nextHandle p;
     calls := calls p |}.

Definition with_clickListener v (p : Platform) : Platform :=
  {| contextState := contextState p; canPlayType := canPlayType p;
     intervals := intervals p; clickListener := v;
     stateChangeListener := stateChangeListener p; nextHandle := nextHandle p;
     calls := calls p |}.

Definition with_stateChangeListener v (p : Platform) : Platform :=
  {| contextState := contextState p; canPlayType := canPlayType p;
     intervals := intervals p; clickListener := clickListener p;
     stateChangeListener := v; nextHandle := nextHandle p; calls := calls p |}.

Definition with_nextHandle v (p : Platform) : Platform :=
  {| contextState := contextState p; canPlayType := canPlayType p;
     intervals := intervals p; clickListener := clickListener p;
     stateChangeListener := stateChangeListener p; nextHandle := v;
     calls := calls p |}.

Definition with_calls v (p : Platform) : Platform :=
  {| contextState := contextState p; canPlayType := canPlayType p;
     intervals := intervals p; clickListener := clickListener p;
     stateChangeListener := stateChangeListener p; nextHandle := nextHandle p;
     calls := v |}.

Definition assign (f : Engine -> Engine) (w : World) : World :=
  {| engine := f (engine w); platform := platform w |}.

Definition browser (f : Platform -> Platform) (w : World) : World :=
  {| engine := engine w; platform := f (platform w) |}.

(** Record a call in the log. *)
Definition emit (c : Call) (w : World) : World :=
  browser (fun p => with_calls (calls p ++ [c])%list p) w.

(** Take a fresh handle. *)
Definition fresh (w : World) : nat * World :=
  (nextHandle (platform w),
   browser (fun p => with_nextHandle (S (nextHandle p)) p) w).

(** ** Browser primitives used by the engine *)

(** [new AudioContext()]: a context starts out suspended. *)
Definition new_AudioContext (p : Platform) : ContextId * Platform :=
  let c := nextHandle p in
  (c, with_calls (calls p ++ [NewAudioContext c])%list
        (with_nextHandle (S c)
           (with_contextState (<[c := "suspended"]> (contextState p)) p))).

(** [this.audioContext.resume()] hands back a new promise. *)
Definition context_resume (w : World) : PromiseId * World :=
  let '(p, w) := fresh w in
  (p, emit (ContextResume (audioContext (engine w)) p) w).

Definition context_suspend (w : World) : PromiseId * World :=
  let '(p, w) := fresh w in
  (p, emit (ContextSuspend (audioContext (engine w)) p) w).

(** [clearInterval(id)]; [clearInterval(null)] clears nothing. *)
Definition clearInterval (id : option TimerId) (w : World) : World :=
  let w := emit (ClearInterval id) w in
  match id with
  | Some t => browser (fun p => with_intervals (intervals p ∖ {[t]}) p) w
  | None => w
  end.

(** [setInterval(callback, ms)] hands back the id of the new timer. *)
Definition setInterval (ms : number) (w : World) : TimerId * World :=
  let '(t, w) := fresh w in
  (t, emit (SetInterval t ms)
        (browser (fun p => with_intervals (intervals p ∪ {[t]}) p) w)).

(** [output.volume = value] for the main output [output] held in
    [this._mainOutput]. *)
Definition mainOutput_set_volume (output : MainOutput) (value : number)
    (w : World) : World :=
  emit (MainOutputSetVolume value)
    (assign (with_mainOutput (Some {| mo_volume := value |})) w).

(** ** The members of [_WebAudioEngine], in source order *)

(** [get state()] *)
Definition state (w : World) : string :=
  default "closed" (contextState (platform w) !! audioContext (engine w)).

(** [resume()].  The body has no [await]: it ends at once, resolving the
    promise of the call with the cached promise ([Some p]) or, when it falls
    off its end, with [undefined] ([None]). *)
Definition resume (w : World) : Task (option PromiseId) * World :=
  match _resumePromise (engine w) with
  | Some p => (Returned (Some p), w)
  | None =>
      let '(p, w) := context_resume w in
      (Returned None, assign (with_resumePromise (Some p)) w)
  end.

(** [_initAudioContext] *)
Definition _initAudioContext (w : World) : Task unit * World :=
  let w := emit (AddEventListener (Context (audioContext (engine w))) "statechange") w in
  let w := browser (with_stateChangeListener true) w in
  let w := emit CreateMainAudioOutputAsync w in
  (Awaiting AwMainAudioOutput (fun o w =>
     match o with
     | Rejected => (Threw, w)
     | Fulfilled output =>
         let w := assign (with_mainOutput output) w in
         match _mainOutput (engine w) with
         | None => (Threw, w)   (* TypeError: property of null *)
         | Some output =>
             let w := mainOutput_set_volume output (_volume (engine w)) w in
             let w := emit (CreateMainAudioBusAsync "default") w in
             (Awaiting AwMainAudioBus (fun o w =>
                match o with
                | Rejected => (Threw, w)
                | Fulfilled _ => (Returned tt, w)
                end), w)
         end
     end), w).

(** The [while (!next.done)] loop of [_onUserInteraction]; [next] is the
    last result of [it.next()] and [it] the position of the iterator.
    [fuel] bounds the number of rounds. *)
Fixpoint start_pending (fuel : nat) (next : option Instance) (it : nat)
    (w : World) : option World :=
  match next with
  | None => Some w
  | Some instance =>
      match fuel with
      | O => None
      | S fuel =>
          let w := emit (InstancePlay instance) w in
          let w := assign (fun e =>
                     with_soundInstancesToStartOnNextUserInteraction
                       (delete instance (_soundInstancesToStartOnNextUserInteraction e)) e) w in
          let '(next, it) :=
            iter_next (_soundInstancesToStartOnNextUserInteraction (engine w)) it in
          start_pending fuel next it w
      end
  end.

(** [_onUserInteraction].  Each round of the loop moves the iterator forward
    in a list whose length does not change, so the length of the list bounds
    the number of rounds. *)
Definition _onUserInteraction (w : World) : Task unit * World :=
  if _resumeOnInteraction (engine w) then
    let '(p, w) := context_resume w in
    (Awaiting (AwContextResume p) (fun o w =>
       match o with
       | Rejected => (Threw, w)
       | Fulfilled _ =>
           let s := _soundInstancesToStartOnNextUserInteraction (engine w) in
           let '(next, it) := iter_next s 0 in
           match start_pending (length s) next it w with
           | Some w => (Returned tt, w)
           | None => (Diverged, w)
           end
       end), w)
  else (Returned tt, w).

(** The callback given to [setInterval] in [_onAudioContextStateChange]. *)
Definition resumeOnPauseTimer (w : World) : World := snd (resume w).

(** [_onAudioContextStateChange] *)
Definition _onAudioContextStateChange (w : World) : World :=
  let w :=
    if String.eqb (state w) "running" then
      let w := clearInterval (_resumeOnPauseTimerId (engine w)) w in
      let w := assign (with_audioContextStarted true) w in
      assign (with_resumePromise None) w
    else w in
  let w :=
    if String.eqb (state w) "suspended" || String.eqb (state w) "interrupted" then
      if _audioContextStarted (engine w) && _resumeOnPause (engine w) then
        let w := clearInterval (_resumeOnPauseTimerId (engine w)) w in
        let '(t, w) := setInterval (_resumeOnPauseRetryInterval (engine w)) w in
        assign (with_resumeOnPauseTimerId (Some t)) w
      else w
    else w in
  emit (NotifyObservers (state w)) w.

(** [get volume()] *)
Definition volume (w : World) : number := _volume (engine w).

(** [get isWebAudio()] *)
Definition isWebAudio (w : World) : bool := true.

(** [get mainOutput()] *)
Definition mainOutput (w : World) : option MainOutput := _mainOutput (engine w).

(** [set volume(value)] *)
Definition set_volume (value : number) (w : World) : World :=
  if strict_eq (_volume (engine w)) value then w
  else
    let w := assign (with_volume value) w in
    match _mainOutput (engine w) with
    | Some output => mainOutput_set_volume output value w
    | None => w
    end.

(** The field initialisers of the class, for an engine on context [c]. *)
Definition fields (c : ContextId) : Engine :=
  {| _audioContextStarted := false;
     _resumePromise := None;
     _mainOutput := None;
     _invalidFormats := ∅;
     _validFormats := ∅;
     _volume := 1%float;
     audioContext := c;
     isReadyPromise := Pending;
     _resumeOnInteraction := true;
     _resumeOnPause := true;
     _resumeOnPauseRetryInterval := 1000%float;
     _resumeOnPauseTimerId := None;
     _soundInstancesToStartOnNextUserInteraction := [] |}.

(** [constructor(options)]: [options?.audioContext ?? new AudioContext()]. *)
Definition constructor (options : Options.t) (p : Platform) : World :=
  match Options.audioContext options with
  | Some c => {| engine := fields c; platform := p |}
  | None =>
      let '(c, p) := new_AudioContext p in
      {| engine := fields c; platform := p |}
  end.

(** [this._resolveIsReadyPromise()]: resolving a promise that is already
    resolved changes nothing. *)
Definition _resolveIsReadyPromise (w : World) : World :=
  emit ResolveIsReadyPromise (assign (with_isReadyPromise Resolved) w).

(** [init(options)] *)
Definition init (options : option Options.t) (w : World) : Task unit * World :=
  let w := assign (with_resumeOnInteraction
             (default true (options ≫= Options.resumeOnInteraction))) w in
  let w := assign (with_resumeOnPause
             (default true (options ≫= Options.resumeOnPause))) w in
  let w := assign (with_resumeOnPauseRetryInterval
             (default 1000%float (options ≫= Options.resumeOnPauseRetryInterval))) w in
  let w := emit (AddEventListener Document "click") w in
  let w := browser (with_clickListener true) w in
  let '(callee, w) := _initAudioContext w in
  await_call callee (fun _ w => (Returned tt, _resolveIsReadyPromise w)) w.

(** [dispose()] *)
Definition dispose (w : World) : World :=
  let w := emit SuperDispose w in
  let w :=
    if negb (String.eqb (state w) "closed")
    then emit (ContextClose (audioContext (engine w))) w
    else w in
  let w := emit (RemoveEventListener Document "click") w in
  let w := browser (with_clickListener false) w in
  let w := emit (RemoveEventListener (Context (audioContext (engine w))) "statechange") w in
  browser (with_stateChangeListener false) w.

(** [flagInvalidFormat(format)] *)
Definition flagInvalidFormat (format : string) (w : World) : World :=
  assign (fun e => with_invalidFormats (_invalidFormats e ∪ {[format]}) e) w.

(** [formatIsValid(format)] *)
Definition formatIsValid (format : string) (w : World) : bool * World :=
  if bool_decide (format ∈ _validFormats (engine w)) then (true, w)
  else if bool_decide (format ∈ _invalidFormats (engine w)) then (false, w)
  else
    match formatMimeTypeMap !! format with
    | None => (false, w)
    | Some mimeType =>
        let w := emit (CanPlayType mimeType) w in
        if String.eqb (canPlayType (platform w) mimeType) "" then
          (false, assign (fun e => with_invalidFormats (_invalidFormats e ∪ {[format]}) e) w)
        else
          (true, assign (fun e => with_validFormats (_validFormats e ∪ {[format]}) e) w)
    end.

(** [pause()] *)
Definition pause (w : World) : Task unit * World :=
  let '(p, w) := context_suspend w in
  (Awaiting (AwContextSuspend p) (fun o w =>
     match o with
     | Rejected => (Threw, w)
     | Fulfilled _ => (Returned tt, w)
     end), w).

(** [addMainBus(mainBus)], [addSound(sound)] and
    [addSoundInstance(soundInstance)] hand over to the base class. *)
Definition addMainBus (mainBus : nat) (w : World) : World :=
  emit (SuperAddMainBus mainBus) w.

Definition addSound (sound : nat) (w : World) : World :=
  emit (SuperAddSound sound) w.

Definition addSoundInstance (soundInstance : Instance) (w : World) : World :=
  emit (SuperAddSoundInstance soundInstance) w.

(** [startSoundInstanceOnNextUserInteraction(soundInstance)] *)
Definition startSoundInstanceOnNextUserInteraction (soundInstance : Instance)
    (w : World) : World :=
  assign (fun e =>
    with_soundInstancesToStartOnNextUserInteraction
      (add soundInstance (_soundInstancesToStartOnNextUserInteraction e)) e) w.

(** [CreateAudioEngineAsync(options)]; the engine it resolves with is the
    one in the final world. *)
Definition CreateAudioEngineAsync (options : option Options.t) (p : Platform)
    : Task unit * World :=
  let w := constructor (default Options.empty options) p in
  let '(callee, w) := init options w in
  await_call callee (fun _ w => (Returned tt, w)) w.

(** ** The engine in its event loop

    JavaScript runs one job at a time.  A job is either a call into the
    engine (by the application, or by the browser firing an event or a
    timer), run up to its end or to its first [await]; or the continuation
    of a suspended call whose awaited promise has settled. *)

Inductive Op : Type :=
| OpInit (options : option Options.t)
| OpDispose
| OpSetVolume (value : number)
| OpFlagInvalidFormat (format : string)
| OpFormatIsValid (format : string)
| OpPause
| OpResume
| OpAddMainBus (mainBus : nat)
| OpAddSound (sound : nat)
| OpAddSoundInstance (soundInstance : Instance)
| OpStartSoundInstanceOnNextUserInteraction (soundInstance : Instance)
| BrowserContextState (s : string)      (* the context enters state [s] *)
| BrowserClick                          (* a click on the document *)
| BrowserTimer (t : TimerId)            (* the interval of timer [t] elapses *)
| BrowserCodecs (f : string -> string). (* the answers of [canPlayType] change *)

Definition finished (w : World) : Task unit * World := (Returned tt, w).

Definition exec (op : Op) (w : World) : Task unit * World :=
  match op with
  | OpInit options => init options w
  | OpDispose => finished (dispose w)
  | OpSetVolume value => finished (set_volume value w)
  | OpFlagInvalidFormat format => finished (flagInvalidFormat format w)
  | OpFormatIsValid format => finished (snd (formatIsValid format w))
  | OpPause => pause w
  | OpResume => finished (snd (resume w))
  | OpAddMainBus mainBus => finished (addMainBus mainBus w)
  | OpAddSound sound => finished (addSound sound w)
  | OpAddSoundInstance i => finished (addSoundInstance i w)
  | OpStartSoundInstanceOnNextUserInteraction i =>
      finished (startSoundInstanceOnNextUserInteraction i w)
  | BrowserContextState s =>
      let w := browser (fun p =>
                 with_contextState (<[audioContext (engine w) := s]> (contextState p)) p) w in
      if stateChangeListener (platform w)
      then finished (_onAudioContextStateChange w)
      else finished w
  | BrowserClick =>
      if clickListener (platform w) then _onUserInteraction w else finished w
  | BrowserTimer t =>
      if bool_decide (t ∈ intervals (platform w))
      then finished (resumeOnPauseTimer w)
      else finished w
  | BrowserCodecs f => finished (browser (with_canPlayType f) w)
  end.

Record System : Type := { world : World; suspended : list (Task unit) }.

Inductive Job : Type :=
| Invoke (op : Op)
| Settle (n : nat) (o : Settlement Payload).  (* of the [n]-th call made *)

Definition step (s : System) (j : Job) : System :=
  match j with
  | Invoke op =>
      let '(t, w) := exec op (world s) in
      {| world := w; suspended := (suspended s ++ [t])%list |}
  | Settle n o =>
      match suspended s !! n with
      | Some (Awaiting _ k) =>
          let '(t, w) := k o (world s) in
          {| world := w; suspended := <[n := t]> (suspended s) |}
      | _ => s
      end
  end.

Definition run (jobs : list Job) (s : System) : System := foldl step s jobs.

(** A freshly constructed engine, before any job. *)
Definition boot (options : Options.t) (p : Platform) : System :=
  {| world := constructor options p; suspended := [] |}.

End WebAudioEngine.

(* ================================================================== *)
(** * iblShadowsSpatialBlurPass.ts *)
(* ================================================================== *)

Module IblShadowsSpatialBlurPass.
Import Js.
#[local] Open Scope string_scope.

Definition PostProcessId : Set := nat.
Definition Texture : Set := nat.

Record Vector4 : Set := { x : number; y : number; z : number; w : number }.

(** The members of [Constants] the pass uses.  Their values are declared
    in [Engines/constants], outside these files; they are a parameter. *)
Module Constants.
Record t : Set := {
  TEXTUREFORMAT_R : Z;
  TEXTUREFORMAT_RG : Z;
  TEXTURETYPE_UNSIGNED_BYTE : Z;
  TEXTURE_NEAREST_SAMPLINGMODE : Z;
  PREPASS_WORLD_NORMAL_TEXTURE_TYPE : Z;
  PREPASS_DEPTH_TEXTURE_TYPE : Z;
}.
End Constants.

(** [scene.prePassRenderer]: [getIndex] and the textures of
    [getRenderTarget()]. *)
Record PrePassRenderer : Type := {
  getIndex : Z -> Z;
  textures : list Texture;
}.

(** The scene and its engine as the pass reads them; [_scene] and [_engine]
    never change, so the scene is passed to each member instead. *)
Record Scene : Type := {
  constants : Constants.t;
  getRenderWidth : number;
  getRenderHeight : number;
  prePassRenderer : option PrePassRenderer;
  postProcessIsReady : PostProcessId -> bool;  (* [PostProcess.isReady()] *)
}.

Record PostProcessOptions : Set := {
  width : number;
  height : number;
  textureFormat : Z;
  textureType : Z;
  samplingMode : Z;
  uniforms : list string;
  samplers : list string;
  reusable : bool;
}.

(** The two closures the pass installs as [onApply]. *)
Inductive OnApply : Set :=
| OutputOnApply   (* [(effect) => this._updatePostProcess(effect)] *)
| DebugOnApply.   (* the closure written in [_createDebugPass] *)

(** A [PostProcess] object, as far as the pass writes it. *)
Record PostProcess : Set := {
  name : string;
  fragmentUrl : string;
  options : PostProcessOptions;
  autoClear : bool;
  onApply : option OnApply;
  disposed : bool;
}.

(** [new PostProcess(name, fragmentUrl, options)]; [autoClear] is [true]
    and [onApply] unset on a new post-process. *)
Definition new_PostProcess (n f : string) (o : PostProcessOptions) : PostProcess :=
  {| name := n; fragmentUrl := f; options := o;
     autoClear := true; onApply := None; disposed := false |}.

Definition with_autoClear (v : bool) (pp : PostProcess) : PostProcess :=
  {| name := name pp; fragmentUrl := fragmentUrl pp; options := options pp;
     autoClear := v; onApply := onApply pp; disposed := disposed pp |}.

Definition with_onApply (v : option OnApply) (pp : PostProcess) : PostProcess :=
  {| name := name pp; fragmentUrl := fragmentUrl pp; options := options pp;
     autoClear := autoClear pp; onApply := v; disposed := disposed pp |}.

Definition with_disposed (v : bool) (pp : PostProcess) : PostProcess :=
  {| name := name pp; fragmentUrl := fragmentUrl pp; options := options pp;
     autoClear := autoClear pp; onApply := onApply pp; disposed := v |}.

(** The calls made on the [Effect] handed to [onApply]. *)
Inductive EffectCall : Set :=
| SetVector4 (uniform : string) (v : Vector4)
| SetTexture (sampler : string) (t : option Texture)
| SetTextureFromPostProcessOutput (sampler : string) (pp : PostProcessId).

(** The fields of [_IblShadowsSpatialBlurPass].  [_debugPassPP] has no
    initialiser: it is [undefined] ([None]) until it is assigned. *)
Record Pass : Set := {
  _outputPP : PostProcessId;
  _worldScale : number;
  _debugPassName : string;
  debugEnabled : bool;
  _debugPassPP : option PostProcessId;
  _debugSizeParams : Vector4;
}.

(** The pass and the post-process objects it refers to. *)
Record World : Type := {
  pass : Pass;
  postProcesses : gmap PostProcessId PostProcess;
  nextId : PostProcessId;
}.

Definition with_pass (v : Pass) (s : World) : World :=
  {| pass := v; postProcesses := postProcesses s; nextId := nextId s |}.

Definition with_worldScale (v : number) (p : Pass) : Pass :=
  {| _outputPP := _outputPP p; _worldScale := v;
     _debugPassName := _debugPassName p; debugEnabled := debugEnabled p;
     _debugPassPP := _debugPassPP p; _debugSizeParams := _debugSizeParams p |}.

Definition with_debugEnabled (v : bool) (p : Pass) : Pass :=
  {| _outputPP := _outputPP p; _worldScale := _worldScale p;
     _debugPassName := _debugPassName p; debugEnabled := v;
     _debugPassPP := _debugPassPP p; _debugSizeParams := _debugSizeParams p |}.

Definition with_debugPassPP (v : option PostProcessId) (p : Pass) : Pass :=
  {| _outputPP := _outputPP p; _worldScale := _worldScale p;
     _debugPassName := _debugPassName p; debugEnabled := debugEnabled p;
     _debugPassPP := v; _debugSizeParams := _debugSizeParams p |}.

Definition with_debugSizeParams (v : Vector4) (p : Pass) : Pass :=
  {| _outputPP := _outputPP p; _worldScale := _worldScale p;
     _debugPassName := _debugPassName p; debugEnabled := debugEnabled p;
     _debugPassPP := _debugPassPP p; _debugSizeParams := v |}.

(** Allocate a post-process object. *)
Definition alloc (pp : PostProcess) (s : World) : PostProcessId * World :=
  let i := nextId s in
  (i, {| pass := pass s; postProcesses := <[i := pp]> (postProcesses s);
         nextId := S i |}).

(** [pp.f = v] on the object behind handle [i]. *)
Definition update (i : PostProcessId) (f : PostProcess -> PostProcess)
    (s : World) : World :=
  {| pass := pass s; postProcesses := alter f i (postProcesses s);
     nextId := nextId s |}.

(** ** The members of the class, in source order *)

(** [getPassPP()] *)
Definition getPassPP (s : World) : PostProcessId := _outputPP (pass s).

(** [get debugPassName()] *)
Definition debugPassName (s : World) : string := _debugPassName (pass s).

(** [_createDebugPass()] *)
Definition _createDebugPass (scene : Scene) (s : World) : World :=
  match _debugPassPP (pass s) with
  | Some _ => s
  | None =>
      let debugOptions :=
        {| width := getRenderWidth scene;
           height := getRenderHeight scene;
           textureFormat := Constants.TEXTUREFORMAT_R (constants scene);
           textureType := Constants.TEXTURETYPE_UNSIGNED_BYTE (constants scene);
           samplingMode := Constants.TEXTURE_NEAREST_SAMPLINGMODE (constants scene);
           uniforms := ["sizeParams"];
           samplers := ["debugSampler"];
           reusable := false |} in
      let '(i, s) := alloc (new_PostProcess (debugPassName s) "iblShadowDebug" debugOptions) s in
      let s := with_pass (with_debugPassPP (Some i) (pass s)) s in
      let s := update i (with_autoClear false) s in
      update i (with_onApply (Some DebugOnApply)) s
  end.

(** [getDebugPassPP()]; the result is the value of [this._debugPassPP]. *)
Definition getDebugPassPP (scene : Scene) (s : World)
    : option PostProcessId * World :=
  let s := match _debugPassPP (pass s) with
           | Some _ => s
           | None => _createDebugPass scene s
           end in
  (_debugPassPP (pass s), s).

(** [setWorldScale(scale)] *)
Definition setWorldScale (scale : number) (s : World) : World :=
  with_pass (with_worldScale scale (pass s)) s.

(** [setDebugDisplayParams(x, y, widthScale, heightScale)] *)
Definition setDebugDisplayParams (x0 y0 widthScale heightScale : number)
    (s : World) : World :=
  with_pass (with_debugSizeParams
               {| x := x0; y := y0; z := widthScale; w := heightScale |} (pass s)) s.

(** [_createTextures()], on the fields as the initialisers left them. *)
Definition _createTextures (scene : Scene)
    (store : gmap PostProcessId PostProcess) (next : PostProcessId) : World :=
  let ppOptions :=
    {| width := getRenderWidth scene;
       height := getRenderHeight scene;
       textureFormat := Constants.TEXTUREFORMAT_RG (constants scene);
       textureType := Constants.TEXTURETYPE_UNSIGNED_BYTE (constants scene);
       samplingMode := Constants.TEXTURE_NEAREST_SAMPLINGMODE (constants scene);
       uniforms := ["blurParameters"];
       samplers := ["shadowSampler"; "worldNormalSampler"; "linearDepthSampler"];
       reusable := false |} in
  let i := next in
  let s :=
    {| pass := {| _outputPP := i; _worldScale := 1%float;
                  _debugPassName := "Spatial Blur Debug Pass";
                  debugEnabled := false; _debugPassPP := None;
                  _debugSizeParams := {| x := 0%float; y := 0%float;
                                         z := 0%float; w := 0%float |} |};
       postProcesses :=
         <[i := new_PostProcess "spacialBlurPP" "iblShadowSpatialBlur" ppOptions]> store;
       nextId := S i |} in
  let s := update i (with_autoClear false) s in
  update i (with_onApply (Some OutputOnApply)) s.

(** [constructor(scene)], in a store of post-processes that may already
    hold those of other passes. *)
Definition constructor (scene : Scene)
    (store : gmap PostProcessId PostProcess) (next : PostProcessId) : World :=
  _createTextures scene store next.

(** [_updatePostProcess(effect)]: the calls made on [effect]. *)
Definition _updatePostProcess (scene : Scene) (s : World) : list EffectCall :=
  let iterationCount := 1%float in
  let calls :=
    [SetVector4 "blurParameters"
       {| x := iterationCount; y := _worldScale (pass s); z := 0%float; w := 0%float |}] in
  match prePassRenderer scene with
  | Some prePassRenderer =>
      let wnormalIndex :=
        getIndex prePassRenderer
          (Constants.PREPASS_WORLD_NORMAL_TEXTURE_TYPE (constants scene)) in
      let depthIndex :=
        getIndex prePassRenderer
          (Constants.PREPASS_DEPTH_TEXTURE_TYPE (constants scene)) in
      let calls :=
        if (0 <=? wnormalIndex)%Z
        then calls ++ [SetTexture "worldNormalSampler"
                         (textures prePassRenderer !! Z.to_nat wnormalIndex)]
        else calls in
      if (0 <=? depthIndex)%Z
      then calls ++ [SetTexture "linearDepthSampler"
                       (textures prePassRenderer !! Z.to_nat depthIndex)]
      else calls
  | None => calls
  end%list.

(** What the post-process framework does before a draw with post-process
    [i]: it calls the [onApply] installed on it. *)
Definition apply (i : PostProcessId) (scene : Scene) (s : World) : list EffectCall :=
  match postProcesses s !! i ≫= onApply with
  | Some OutputOnApply => _updatePostProcess scene s
  | Some DebugOnApply =>
      [SetTextureFromPostProcessOutput "debugSampler" (_outputPP (pass s));
       SetVector4 "sizeParams" (_debugSizeParams (pass s))]
  | None => []
  end.

(** [isReady()] *)
Definition isReady (scene : Scene) (s : World) : bool :=
  postProcessIsReady scene (_outputPP (pass s))
  && negb (match _debugPassPP (pass s) with
           | Some debug => negb (postProcessIsReady scene debug)
           | None => false
           end).

(** [dispose()] *)
Definition dispose (s : World) : World :=
  let s := update (_outputPP (pass s)) (with_disposed true) s in
  match _debugPassPP (pass s) with
  | Some debug => update debug (with_disposed true) s
  | None => s
  end.

(** ** The pass and its callers *)

Inductive Op : Type :=
| OpGetPassPP
| OpGetDebugPassPP
| OpSetWorldScale (scale : number)
| OpSetDebugEnabled (v : bool)
| OpSetDebugDisplayParams (x0 y0 widthScale heightScale : number)
| OpApply (i : PostProcessId)
| OpIsReady
| OpDispose.

Definition is_debug_request (op : Op) : bool :=
  match op with
  | OpGetDebugPassPP => true
  | _ => false
  end.

(** One call on the pass, made while the scene is [scene]. *)
Definition exec (s : World) (c : Scene * Op) : World :=
  let '(scene, op) := c in
  match op with
  | OpGetPassPP => s
  | OpGetDebugPassPP => snd (getDebugPassPP scene s)
  | OpSetWorldScale scale => setWorldScale scale s
  | OpSetDebugEnabled v => with_pass (with_debugEnabled v (pass s)) s
  | OpSetDebugDisplayParams x0 y0 ws hs => setDebugDisplayParams x0 y0 ws hs s
  | OpApply _ => s
  | OpIsReady => s
  | OpDispose => dispose s
  end.

Definition run (cs : list (Scene * Op)) (s : World) : World := foldl exec s cs.

End IblShadowsSpatialBlurPass.

(* ================================================================== *)
(** * Vocabulary of the statements *)
(* ================================================================== *)

Module AudioSpec.
Import Js WebAudioEngine.
#[local] Open Scope string_scope.

(** The instances waiting for the next user interaction. *)
Definition pending (w : World) : SetData :=
  _soundInstancesToStartOnNextUserInteraction (engine w).

(** [w] after [play()] was called on [plays], in that order, and every
    entry of the pending set was emptied; nothing else differs from [w]. *)
Definition drained (w : World) (plays : list Instance) : World :=
  {| engine :=
       with_soundInstancesToStartOnNextUserInteraction
         (replicate (length (pending w)) None) (engine w);
     platform :=
       with_calls (calls (platform w) ++ map InstancePlay plays)%list (platform w) |}.

(** *** Histories of the call log *)

(** The state-change callback reports each state it observes to
    [stateChangedObservable]; the entry [NotifyObservers "running"] of the
    log is the trace of an observation of the running state. *)
Definition is_running_notice (c : Call) : bool :=
  match c with
  | NotifyObservers s => String.eqb s "running"
  | _ => false
  end.

Definition seen_running (started : bool) (cs : list Call) : bool :=
  started || existsb is_running_notice cs.

(** Reading the log from the left, no timer is set before the running
    state has been observed ([started]: it has been before the log began). *)
Fixpoint timers_ok (started : bool) (cs : list Call) : bool :=
  match cs with
  | [] => true
  | SetInterval _ _ :: cs' => started && timers_ok started cs'
  | c :: cs' => timers_ok (started || is_running_notice c) cs'
  end.

(** The same, said with positions in the log. *)
Definition scheduled_only_after_running (cs : list Call) : Prop :=
  ∀ before t ms after,
    cs = (before ++ SetInterval t ms :: after)%list →
    In (NotifyObservers "running") before.

Definition sets_no_timer (c : Call) : bool :=
  match c with
  | SetInterval _ _ => false
  | _ => true
  end.

(** The live timers once [clearInterval(id)] has run. *)
Definition cleared (id : option TimerId) (timers : gset TimerId) : gset TimerId :=
  match id with
  | Some t => timers ∖ {[t]}
  | None => timers
  end.

(** *** What one job may do to the engine *)

(** Formats are only ever added to the two sets, and a format enters the
    valid set only from the MIME table and only if it was in neither set. *)
Record formats_step (w w' : World) : Prop := {
  fs_valid : _validFormats (engine w) ⊆ _validFormats (engine w');
  fs_invalid : _invalidFormats (engine w) ⊆ _invalidFormats (engine w');
  fs_probe : ∀ f, f ∈ _validFormats (engine w') → f ∉ _validFormats (engine w) →
               (f ∉ _invalidFormats (engine w)) ∧ is_Some (formatMimeTypeMap !! f);
}.

(** The log only grows; what is added sets no timer before the running
    state was observed; and [_audioContextStarted] is only raised by such an
    observation. *)
Record timers_step (w w' : World) : Prop := {
  ts_calls : ∃ new,
    calls (platform w') = (calls (platform w) ++ new)%list
    ∧ timers_ok (_audioContextStarted (engine w)) new = true
    ∧ (_audioContextStarted (engine w') = true →
       seen_running (_audioContextStarted (engine w)) new = true);
}.

Definition Step (w w' : World) : Prop := formats_step w w' ∧ timers_step w w'.

(** Every continuation of a suspended call, whenever it is resumed, takes
    the world of that moment to one related to it by [R]. *)
Inductive task_steps {A : Type} (R : World → World → Prop) : Task A → Prop :=
| steps_returned a : task_steps R (Returned a)
| steps_threw : task_steps R Threw
| steps_diverged : task_steps R Diverged
| steps_awaiting what k :
    (∀ o w, R w (k o w).2) →
    (∀ o w, task_steps R (k o w).1) →
    task_steps R (Awaiting what k).

(** *** A format whose answer is settled *)

Definition cached (f : string) (w : World) : Prop :=
  f ∈ _validFormats (engine w) ∨ f ∈ _invalidFormats (engine w)
  ∨ formatMimeTypeMap !! f = None.

Definition answer (f : string) (w : World) : bool :=
  bool_decide (f ∈ _validFormats (engine w)).

(** *** Sample values *)

Definition sample_platform : Platform :=
  {| contextState := ∅;
     canPlayType := λ mimeType, if String.eqb mimeType "audio/wav" then "maybe" else "";
     intervals := ∅;
     clickListener := false;
     stateChangeListener := false;
     nextHandle := 0;
     calls := [] |}.

Definition sample_world : World := constructor Options.empty sample_platform.

End AudioSpec.

Module BlurSpec.
Import Js IblShadowsSpatialBlurPass.

(** Some call of the list is [getDebugPassPP()]. *)
Definition requested (cs : list (Scene * Op)) : bool :=
  existsb (λ c, is_debug_request c.2) cs.

(** The output post-process is in the store, with the closure of
    [_createTextures] as its [onApply], and below the allocation mark. *)
Definition output_installed (s : World) : Prop :=
  postProcesses s !! _outputPP (pass s) ≫= onApply = Some OutputOnApply
  ∧ _outputPP (pass s) < nextId s.

Definition sample_constants : Constants.t :=
  {| Constants.TEXTUREFORMAT_R := 6;
     Constants.TEXTUREFORMAT_RG := 7;
     Constants.TEXTURETYPE_UNSIGNED_BYTE := 0;
     Constants.TEXTURE_NEAREST_SAMPLINGMODE := 1;
     Constants.PREPASS_WORLD_NORMAL_TEXTURE_TYPE := 8;
     Constants.PREPASS_DEPTH_TEXTURE_TYPE := 5 |}.

(** A prepass renderer with a depth texture (index 0, texture 40) and no
    world-normal texture (index -1). *)
Definition sample_renderer : PrePassRenderer :=
  {| getIndex := λ type, if (type =? 5)%Z then 0%Z else (-1)%Z;
     textures := [40] |}.

(** A scene with that renderer; post-process 0 is ready, the others are
    not. *)
Definition sample_scene : Scene :=
  {| constants := sample_constants;
     getRenderWidth := 640%float;
     getRenderHeight := 480%float;
     prePassRenderer := Some sample_renderer;
     postProcessIsReady := λ i, bool_decide (i = 0) |}.

(** The same scene while the output post-process 0 is not ready yet and
    post-process 1 is. *)
Definition loading_scene : Scene :=
  {| constants := sample_constants;
     getRenderWidth := 640%float;
     getRenderHeight := 480%float;
     prePassRenderer := Some sample_renderer;
     postProcessIsReady := λ i, bool_decide (i = 1) |}.

Definition sample_pass : World := constructor sample_scene ∅ 0.

End BlurSpec.

Module AudioInvariants.
Import Js WebAudioEngine AudioSpec.

(** Every live timer is either one of [others] (timers that are not the
    engine's) or the one the engine remembers in [_resumeOnPauseTimerId]. *)
Definition timers_owned (others : gset TimerId) (w : World) : Prop :=
  ∀ t, t ∈ intervals (platform w) →
       t ∈ others ∨ _resumeOnPauseTimerId (engine w) = Some t.

(** The main output, when there is one, carries the volume of the engine. *)
Definition volume_mirrored (w : World) : Prop :=
  ∀ output, mainOutput w = Some output → mo_volume output = volume w.

(** No instance waits twice for the next user interaction. *)
Definition pending_nodup (w : World) : Prop := NoDup (elements (pending w)).

Definition is_new_context (c : Call) : bool :=
  match c with
  | NewAudioContext _ => true
  | _ => false
  end.

Definition is_context_resume (c : Call) : bool :=
  match c with
  | ContextResume _ _ => true
  | _ => false
  end.

(** What every job keeps. *)
Record Keeps (w w' : World) : Prop := {
  keeps_context : audioContext (engine w') = audioContext (engine w);
  keeps_ready :
    isReadyPromise (engine w) = Resolved → isReadyPromise (engine w') = Resolved;
  keeps_started :
    _audioContextStarted (engine w) = true → _audioContextStarted (engine w') = true;
  keeps_timers : ∀ others, timers_owned others w → timers_owned others w';
  keeps_volume : volume_mirrored w → volume_mirrored w';
  keeps_pending : pending_nodup w → pending_nodup w';
  keeps_calls : ∃ new,
    calls (platform w') = (calls (platform w) ++ new)%list
    ∧ forallb (λ c, negb (is_new_context c)) new = true;
}.

(** [ticks n w]: the resume-on-pause timer fires [n] times in a row. *)
Fixpoint ticks (n : nat) (w : World) : World :=
  match n with
  | O => w
  | S n => ticks n (resumeOnPauseTimer w)
  end.

End AudioInvariants.

Module BlurInvariants.
Import Js IblShadowsSpatialBlurPass BlurSpec.

(** The world scale after the calls [cs], starting from [v]: that of the
    last [setWorldScale]. *)
Definition scale_after (v : number) (cs : list (Scene * Op)) : number :=
  foldl (λ v c, match c.2 with
                | OpSetWorldScale scale => scale
                | _ => v
                end) v cs.

(** The debug display rectangle after the calls [cs], starting from [v]. *)
Definition params_after (v : Vector4) (cs : list (Scene * Op)) : Vector4 :=
  foldl (λ v c, match c.2 with
                | OpSetDebugDisplayParams x0 y0 widthScale heightScale =>
                    {| x := x0; y := y0; z := widthScale; w := heightScale |}
                | _ => v
                end) v cs.

(** The debug post-process, once assigned, is in the store above the output
    post-process and below the allocation mark, with the closure of
    [_createDebugPass] as its [onApply]. *)
Definition debug_installed (s : World) : Prop :=
  ∀ d, _debugPassPP (pass s) = Some d →
       _outputPP (pass s) < d < nextId s
       ∧ postProcesses s !! d ≫= onApply = Some DebugOnApply.

Definition sets_debugEnabled (op : Op) : bool :=
  match op with
  | OpSetDebugEnabled _ => true
  | _ => false
  end.

(** [s] with [debugEnabled] put to [false]. *)
Definition without_debugEnabled (s : World) : World :=
  with_pass (with_debugEnabled false (pass s)) s.

End BlurInvariants.

(* ================================================================== *)
(** * Properties of [Set] iteration *)
(* ================================================================== *)

Section JsSetFacts.
Context {T : Type} `{EqDecision T}.
Implicit Types (s pre post : Js.SetData (T := T)) (x : T).

Lemma is_entry_same x : Js.is_entry x (Some x) = true.
Proof. simpl. by rewrite bool_decide_eq_true. Qed.

(** Deleting the entry the iterator stands on: everything before it has
    been emptied already, so it is the first live entry. *)
Lemma delete_current k x post :
  Js.delete x (replicate k None ++ Some x :: post)
  = replicate (S k) None ++ post.
Proof.
  induction k as [|k IH]; simpl.
  - by rewrite bool_decide_eq_true_2.
  - by rewrite IH.
Qed.

Lemma length_delete x s : length (Js.delete x s) = length s.
Proof.
  induction s as [|e s IH]; simpl; [done|].
  destruct (Js.is_entry x e); simpl; by rewrite ?IH.
Qed.

Lemma elements_replicate_None k : Js.elements (T := T) (replicate k None) = [].
Proof. induction k; simpl; auto. Qed.

Lemma elements_app s1 s2 :
  Js.elements (s1 ++ s2) = Js.elements s1 ++ Js.elements s2.
Proof. unfold Js.elements. apply omap_app. Qed.

(** [it.next()] either finds the next live entry, with only emptied
    entries in between, or reports the end with only emptied entries left. *)
Lemma scan_spec post n :
  (∃ m x post', post = replicate m None ++ Some x :: post'
                ∧ Js.scan post n = (Some x, S (n + m)))
  ∨ (post = replicate (length post) None
     ∧ Js.scan post n = (None, n + length post)).
Proof.
  revert n. induction post as [|[x|] post IH]; intros n; simpl.
  - right. split; [done|]. f_equal. lia.
  - left. exists 0, x, post. split; [done|]. do 2 f_equal. lia.
  - destruct (IH (S n)) as [(m & x & post' & -> & ->)|[Hp ->]].
    + left. exists (S m), x, post'. split; [done|]. do 2 f_equal. lia.
    + right. split; [by rewrite <- Hp|]. f_equal. lia.
Qed.

Lemma drop_replicate_app k s :
  drop k (replicate (A := option T) k None ++ s) = s.
Proof.
  rewrite drop_app_length'; [done|]. by rewrite length_replicate.
Qed.

Lemma add_elem x s : In x (Js.elements (Js.add x s)).
Proof.
  unfold Js.add. destruct (Js.has x s) eqn:Hh.
  - unfold Js.has in Hh. apply existsb_exists in Hh as (e & He & Hx).
    destruct e as [y|]; simpl in Hx; [|done].
    apply bool_decide_eq_true in Hx as ->.
    apply list_elem_of_In, list_elem_of_omap. exists (Some x).
    split; [by apply list_elem_of_In|done].
  - rewrite elements_app. apply in_or_app. right. simpl. by left.
Qed.
End JsSetFacts.

(* ================================================================== *)
(** * Properties of the audio engine *)
(* ================================================================== *)

Section UserInteraction.
Import Js WebAudioEngine AudioSpec.

Lemma start_pending_done fuel it w : start_pending fuel None it w = Some w.
Proof. by destruct fuel. Qed.

(** One round of the loop: [play()], then [delete]. *)
Lemma drained_round i w plays :
  drained
    (assign (λ e, with_soundInstancesToStartOnNextUserInteraction
                    (delete i (_soundInstancesToStartOnNextUserInteraction e)) e)
       (emit (InstancePlay i) w)) plays
  = drained w (i :: plays).
Proof.
  unfold drained, pending. simpl. by rewrite length_delete, <- app_assoc.
Qed.

Lemma drained_nil_eq w s :
  pending w = s → s = replicate (length s) None →
  drained w [] = w.
Proof.
  intros Hw Hs. unfold drained. rewrite Hw, <- Hs, <- Hw, app_nil_r.
  unfold pending. by destruct w as [[] []].
Qed.

(** The loop, entered with the iterator just past a live entry [i] and only
    emptied entries behind it, plays [i] and every live entry after it and
    leaves the set empty, provided [fuel] exceeds the entries left. *)
Lemma start_pending_drains fuel : ∀ post k i w,
  pending w = replicate k None ++ Some i :: post →
  length post < fuel →
  start_pending fuel (Some i) (S k) w = Some (drained w (i :: elements post)).
Proof.
  induction fuel as [|fuel IH]; intros post k i w Hw Hfuel; [lia|].
  simpl. unfold iter_next. simpl. fold (pending w). rewrite Hw, delete_current.
  rewrite drop_replicate_app.
  match goal with |- context [start_pending fuel _ _ ?w0] => set (w2 := w0) end.
  assert (Hw2 : pending w2 = replicate (S k) None ++ post).
  { unfold w2, pending. simpl. fold (pending w). by rewrite Hw, delete_current. }
  destruct (scan_spec post (S k)) as [(m & x & post' & Hpost & ->)|[Hpost ->]].
  - rewrite (IH post' (S k + m) x w2).
    + f_equal. unfold w2. rewrite drained_round. do 2 f_equal.
      by rewrite Hpost, elements_app, elements_replicate_None.
    + by rewrite Hw2, Hpost, app_assoc, <- replicate_add.
    + rewrite Hpost, length_app in Hfuel. simpl in Hfuel. lia.
  - rewrite start_pending_done. f_equal.
    rewrite Hpost, elements_replicate_None, <- drained_round. fold w2.
    symmetry. apply (drained_nil_eq _ _ Hw2).
    rewrite length_app, !length_replicate, replicate_add.
    by rewrite <- Hpost.
Qed.

(** The whole loop, from [it = values()] and the first [it.next()]. *)
Lemma start_pending_all w :
  start_pending (length (pending w)) (iter_next (pending w) 0).1
    (iter_next (pending w) 0).2 w
  = Some (drained w (elements (pending w))).
Proof.
  unfold iter_next. rewrite drop_0.
  destruct (scan_spec (pending w) 0) as [(m & x & post' & Hs & ->)|[Hs ->]]; simpl.
  - rewrite (start_pending_drains _ post' m x w Hs).
    + by rewrite Hs, elements_app, elements_replicate_None.
    + rewrite Hs, length_app. simpl. lia.
  - rewrite start_pending_done. f_equal. symmetry.
    rewrite Hs, elements_replicate_None. by apply (drained_nil_eq _ _ eq_refl).
Qed.

Lemma elements_drained w plays : elements (pending (drained w plays)) = [].
Proof. unfold drained, pending. simpl. apply elements_replicate_None. Qed.

(** [_onUserInteraction] with resume-on-interaction enabled: it calls
    [audioContext.resume()] and awaits the promise; resumed after the
    promise is fulfilled, it plays the pending instances and returns. *)
Lemma _onUserInteraction_enabled w :
  _resumeOnInteraction (engine w) = true →
  ∃ k, _onUserInteraction w
       = (Awaiting (AwContextResume (context_resume w).1) k, (context_resume w).2)
    ∧ (∀ v w', k (Fulfilled v) w'
               = (Returned tt, drained w' (elements (pending w'))))
    ∧ (∀ w', k Rejected w' = (Threw, w')).
Proof.
  intros Hon. unfold _onUserInteraction. rewrite Hon.
  eexists. split; [reflexivity|]. split; [|done].
  intros v w'. simpl.
  pose proof (start_pending_all w') as Hall. unfold pending in Hall.
  destruct (iter_next _ 0) as [next it]. simpl in Hall. by rewrite Hall.
Qed.
End UserInteraction.

Section CallLogs.
Import Js WebAudioEngine AudioSpec.

Lemma timers_ok_app b cs1 cs2 :
  timers_ok b (cs1 ++ cs2) = timers_ok b cs1 && timers_ok (seen_running b cs1) cs2.
Proof.
  unfold seen_running. revert b.
  induction cs1 as [|c cs1 IH]; intros b; simpl.
  - by rewrite orb_false_r.
  - destruct c; simpl; rewrite ?orb_false_r, ?IH, ?orb_assoc, ?andb_assoc; done.
Qed.

Lemma timers_ok_started cs b : timers_ok b cs = true → timers_ok true cs = true.
Proof.
  revert b. induction cs as [|c cs IH]; intros b; simpl; [done|].
  destruct c; simpl; rewrite ?orb_false_r; eauto.
  intros [_ ?]%andb_true_iff. eauto.
Qed.

Lemma seen_running_app b cs1 cs2 :
  seen_running b (cs1 ++ cs2) = seen_running (seen_running b cs1) cs2.
Proof. unfold seen_running. by rewrite existsb_app, orb_assoc. Qed.

Lemma is_running_notice_In c : is_running_notice c = true → c = NotifyObservers "running".
Proof.
  destruct c; simpl; try done. by intros ->%String.eqb_eq.
Qed.

(** The boolean reading of the log implies the one with positions. *)
Lemma timers_ok_scheduled cs :
  timers_ok false cs = true → scheduled_only_after_running cs.
Proof.
  intros Hok before t ms after ->.
  rewrite timers_ok_app in Hok. apply andb_true_iff in Hok as [_ Hok].
  simpl in Hok. apply andb_true_iff in Hok as [Hseen _].
  unfold seen_running in Hseen. simpl in Hseen.
  apply existsb_exists in Hseen as (c & Hin & Hc).
  by apply is_running_notice_In in Hc as ->.
Qed.

(** A log without [SetInterval] is fine whatever came before. *)
Lemma timers_ok_quiet b cs : forallb sets_no_timer cs = true → timers_ok b cs = true.
Proof.
  revert b. induction cs as [|c cs IH]; intros b; simpl; [done|].
  intros [Hc Hcs]%andb_true_iff. destruct c; simpl in *; eauto. done.
Qed.

Lemma seen_running_started b cs : b = true → seen_running b cs = true.
Proof. by intros ->. Qed.
End CallLogs.

Section Steps.
Import Js WebAudioEngine AudioSpec.

Lemma formats_step_refl w : formats_step w w.
Proof. split; [done|done|]. intros f ? ?. done. Qed.

Lemma formats_step_trans w1 w2 w3 :
  formats_step w1 w2 → formats_step w2 w3 → formats_step w1 w3.
Proof.
  intros [V1 I1 P1] [V2 I2 P2]. split; [by etrans|by etrans|].
  intros f H3 H1.
  destruct (decide (f ∈ _validFormats (engine w2))) as [H2|H2].
  - by apply P1.
  - destruct (P2 f H3 H2) as [Hi Ht]. split; [|done].
    intros Hf. by apply Hi, I1.
Qed.

Lemma timers_step_refl w : timers_step w w.
Proof.
  split. exists []. rewrite app_nil_r. split; [done|]. split; [done|].
  intros ->. done.
Qed.

Lemma timers_step_trans w1 w2 w3 :
  timers_step w1 w2 → timers_step w2 w3 → timers_step w1 w3.
Proof.
  intros [(n1 & C1 & T1 & S1)] [(n2 & C2 & T2 & S2)]. split.
  exists (n1 ++ n2). rewrite C2, C1, app_assoc. split; [done|].
  rewrite timers_ok_app, seen_running_app, T1. simpl.
  destruct (_audioContextStarted (engine w2)) eqn:E2.
  - rewrite (S1 eq_refl). split; [done|]. intros _. done.
  - split.
    + destruct (seen_running _ n1); [by eapply timers_ok_started|done].
    + intros H3. specialize (S2 H3). unfold seen_running in *.
      simpl in S2. rewrite S2. by rewrite orb_true_r.
Qed.

Lemma Step_refl w : Step w w.
Proof. split; [apply formats_step_refl|apply timers_step_refl]. Qed.

Lemma Step_trans w1 w2 w3 : Step w1 w2 → Step w2 w3 → Step w1 w3.
Proof.
  intros [] []. split; [by eapply formats_step_trans|by eapply timers_step_trans].
Qed.

(** A job that leaves the format sets alone. *)
Lemma formats_step_frame w w' :
  _validFormats (engine w') = _validFormats (engine w) →
  _invalidFormats (engine w') = _invalidFormats (engine w) →
  formats_step w w'.
Proof.
  intros HV HI. split; rewrite ?HV, ?HI; [done|done|]. intros f ? ?. done.
Qed.

(** A job that sets no timer and leaves [_audioContextStarted] alone. *)
Lemma timers_step_frame w w' new :
  _audioContextStarted (engine w') = _audioContextStarted (engine w) →
  calls (platform w') = calls (platform w) ++ new →
  forallb sets_no_timer new = true →
  timers_step w w'.
Proof.
  intros HS HC HQ. split. exists new. split; [done|].
  split; [by apply timers_ok_quiet|]. rewrite HS. apply seen_running_started.
Qed.

(** A job that, besides, leaves the format sets alone. *)
Lemma Step_frame w w' new :
  _validFormats (engine w') = _validFormats (engine w) →
  _invalidFormats (engine w') = _invalidFormats (engine w) →
  _audioContextStarted (engine w') = _audioContextStarted (engine w) →
  calls (platform w') = calls (platform w) ++ new →
  forallb sets_no_timer new = true →
  Step w w'.
Proof.
  intros HV HI HS HC HQ.
  split; [by apply formats_step_frame|by eapply timers_step_frame].
Qed.
End Steps.

(** Closes [Step w w'] when [w'] is [w] with some calls logged, none of them
    [SetInterval], and fields other than the format sets and
    [_audioContextStarted] assigned. *)
Ltac frame :=
  eapply Step_frame;
  [ reflexivity | reflexivity | reflexivity
  | simpl; rewrite <- ?app_assoc;
    first [ reflexivity | symmetry; apply app_nil_r ]
  | reflexivity ].

Section Jobs.
Import Js WebAudioEngine AudioSpec.

Lemma set_volume_step value w : Step w (set_volume value w).
Proof.
  unfold set_volume. destruct (strict_eq _ _); [apply Step_refl|].
  simpl. destruct (_mainOutput (engine w)); frame.
Qed.

Lemma dispose_step w : Step w (dispose w).
Proof.
  unfold dispose. destruct (negb _); frame.
Qed.

Lemma resume_step w : Step w (resume w).2.
Proof.
  unfold resume. destruct (_resumePromise (engine w)); [apply Step_refl|frame].
Qed.

Lemma startSoundInstanceOnNextUserInteraction_step i w :
  Step w (startSoundInstanceOnNextUserInteraction i w).
Proof. frame. Qed.

Lemma flagInvalidFormat_step format w : Step w (flagInvalidFormat format w).
Proof.
  split; [|apply (timers_step_frame w _ []); simpl; rewrite ?app_nil_r; done].
  split; simpl; [done|set_solver|]. intros f ? ?. done.
Qed.

Lemma formatIsValid_step format w : Step w (formatIsValid format w).2.
Proof.
  unfold formatIsValid.
  destruct (bool_decide _) eqn:Hv; [apply Step_refl|].
  destruct (bool_decide (format ∈ _invalidFormats _)) eqn:Hi; [apply Step_refl|].
  destruct (formatMimeTypeMap !! format) as [mimeType|] eqn:Hm; [|apply Step_refl].
  apply bool_decide_eq_false in Hv, Hi.
  simpl. destruct (String.eqb _ _); simpl.
  - split; [|apply (timers_step_frame _ _ [CanPlayType mimeType]); done].
    split; simpl; [done|set_solver|]. intros f ? ?. done.
  - split; [|apply (timers_step_frame _ _ [CanPlayType mimeType]); done].
    split; simpl; [set_solver|done|].
    intros f [?| ->%elem_of_singleton]%elem_of_union ?; [done|].
    split; [done|]. by rewrite Hm.
Qed.

Lemma pause_steps w : Step w (pause w).2 ∧ task_steps Step (pause w).1.
Proof.
  split; [frame|]. simpl. constructor.
  - intros [v|] w'; apply Step_refl.
  - intros [v|] w'; constructor.
Qed.

Lemma await_call_steps {A B} (callee : Task A) (rest : A → World → Task B * World) :
  task_steps Step callee →
  (∀ a w, Step w (rest a w).2 ∧ task_steps Step (rest a w).1) →
  ∀ w, Step w (await_call callee rest w).2
       ∧ task_steps Step (await_call callee rest w).1.
Proof.
  intros Hc Hrest. induction Hc as [a| | |what k Hk Hks IH]; intros w; simpl.
  - apply Hrest.
  - split; [apply Step_refl|constructor].
  - split; [apply Step_refl|constructor].
  - split; [apply Step_refl|]. constructor.
    + intros o w'. specialize (Hk o w'). specialize (IH o w').
      destruct (k o w') as [c w'']. simpl in *.
      eapply Step_trans; [exact Hk|]. apply IH.
    + intros o w'. specialize (IH o w').
      destruct (k o w') as [c w'']. simpl in *. apply IH.
Qed.

Lemma _initAudioContext_steps w :
  Step w (_initAudioContext w).2 ∧ task_steps Step (_initAudioContext w).1.
Proof.
  split; [frame|]. simpl. constructor.
  - intros [output|] w'; [|apply Step_refl].
    destruct output as [output|]; simpl; frame.
  - intros [output|] w'; [|constructor].
    destruct output as [output|]; simpl; constructor.
    + intros [v|] w''; apply Step_refl.
    + intros [v|] w''; constructor.
Qed.

Lemma init_steps options w :
  Step w (init options w).2 ∧ task_steps Step (init options w).1.
Proof.
  unfold init.
  match goal with |- context [_initAudioContext ?w0] => set (w1 := w0) end.
  assert (H1 : Step w w1) by (unfold w1; frame).
  destruct (_initAudioContext_steps w1) as [H2 H3].
  destruct (_initAudioContext w1) as [callee w2]. simpl in H2, H3.
  destruct (await_call_steps callee
              (λ _ w, (Returned tt, _resolveIsReadyPromise w)) H3) with (w := w2)
    as [H4 H5].
  - intros _ w'. split; [frame|constructor].
  - split; [|done]. eapply Step_trans; [exact H1|]. by eapply Step_trans.
Qed.

Lemma forallb_sets_no_timer_plays plays :
  forallb sets_no_timer (map InstancePlay plays) = true.
Proof. induction plays; simpl; auto. Qed.

Lemma drained_step w plays : Step w (drained w plays).
Proof.
  eapply Step_frame; [reflexivity..| apply forallb_sets_no_timer_plays].
Qed.

Lemma _onUserInteraction_steps w :
  Step w (_onUserInteraction w).2 ∧ task_steps Step (_onUserInteraction w).1.
Proof.
  destruct (_resumeOnInteraction (engine w)) eqn:Hon.
  - destruct (_onUserInteraction_enabled w Hon) as (k & -> & Hf & Hr). simpl.
    split; [frame|]. constructor.
    + intros [v|] w'; rewrite ?Hf, ?Hr; simpl;
        [apply drained_step|apply Step_refl].
    + intros [v|] w'; rewrite ?Hf, ?Hr; constructor.
  - unfold _onUserInteraction. rewrite Hon. split; [apply Step_refl|constructor].
Qed.

(** *** The state-change callback, case by case *)

Lemma _onAudioContextStateChange_running w :
  state w = "running" →
  _onAudioContextStateChange w
  = emit (NotifyObservers "running")
      (assign (with_resumePromise None)
         (assign (with_audioContextStarted true)
            (clearInterval (_resumeOnPauseTimerId (engine w)) w))).
Proof.
  intros Hs. unfold _onAudioContextStateChange, state in *.
  destruct (_resumeOnPauseTimerId (engine w));
    repeat (progress (simpl; rewrite ?Hs)); reflexivity.
Qed.

Lemma _onAudioContextStateChange_paused w :
  state w = "suspended" ∨ state w = "interrupted" →
  _onAudioContextStateChange w
  = if _audioContextStarted (engine w) && _resumeOnPause (engine w) then
      let w1 := clearInterval (_resumeOnPauseTimerId (engine w)) w in
      let w2 := (setInterval (_resumeOnPauseRetryInterval (engine w)) w1).2 in
      emit (NotifyObservers (state w))
        (assign (with_resumeOnPauseTimerId (Some (nextHandle (platform w)))) w2)
    else emit (NotifyObservers (state w)) w.
Proof.
  intros Hs. unfold _onAudioContextStateChange, state in *.
  destruct Hs as [Hs|Hs]; rewrite Hs; simpl;
    destruct (_audioContextStarted (engine w)), (_resumeOnPause (engine w)),
      (_resumeOnPauseTimerId (engine w));
    repeat (progress (simpl; rewrite ?Hs)); reflexivity.
Qed.

Lemma _onAudioContextStateChange_other w :
  state w ≠ "running" → state w ≠ "suspended" → state w ≠ "interrupted" →
  _onAudioContextStateChange w = emit (NotifyObservers (state w)) w.
Proof.
  intros H1%String.eqb_neq H2%String.eqb_neq H3%String.eqb_neq.
  unfold _onAudioContextStateChange. rewrite H1. cbv zeta. by rewrite H2, H3.
Qed.

Lemma _onAudioContextStateChange_step w : Step w (_onAudioContextStateChange w).
Proof.
  destruct (decide (state w = "running")) as [Hr|Hr].
  { rewrite (_onAudioContextStateChange_running w Hr).
    split; [apply formats_step_frame; by destruct (_resumeOnPauseTimerId (engine w))|].
    split. exists [ClearInterval (_resumeOnPauseTimerId (engine w));
                   NotifyObservers "running"].
    split; [destruct (_resumeOnPauseTimerId (engine w)); simpl;
            by rewrite <- !app_assoc|].
    by destruct (_audioContextStarted (engine w)). }
  destruct (decide (state w = "suspended" ∨ state w = "interrupted")) as [Hp|Hp].
  { rewrite (_onAudioContextStateChange_paused w Hp).
    destruct (_audioContextStarted (engine w)) eqn:Hstarted,
      (_resumeOnPause (engine w)); simpl; try frame.
    split; [apply formats_step_frame; by destruct (_resumeOnPauseTimerId (engine w))|].
    split. exists [ClearInterval (_resumeOnPauseTimerId (engine w));
                   SetInterval (nextHandle (platform w))
                     (_resumeOnPauseRetryInterval (engine w));
                   NotifyObservers (state w)].
    rewrite Hstarted.
    split; [destruct (_resumeOnPauseTimerId (engine w)); simpl;
            by rewrite <- !app_assoc|done]. }
  rewrite _onAudioContextStateChange_other; [frame|done|tauto|tauto].
Qed.

(** *** Every job *)

Lemma exec_steps op w : Step w (exec op w).2 ∧ task_steps Step (exec op w).1.
Proof.
  destruct op; simpl.
  - apply init_steps.
  - split; [apply dispose_step|constructor].
  - split; [apply set_volume_step|constructor].
  - split; [apply flagInvalidFormat_step|constructor].
  - split; [apply formatIsValid_step|constructor].
  - apply pause_steps.
  - split; [apply resume_step|constructor].
  - split; [frame|constructor].
  - split; [frame|constructor].
  - split; [frame|constructor].
  - split; [apply startSoundInstanceOnNextUserInteraction_step|constructor].
  - destruct (stateChangeListener (platform w)); simpl.
    + split; [|constructor].
      eapply Step_trans; [|apply _onAudioContextStateChange_step]. frame.
    + split; [frame|constructor].
  - destruct (clickListener (platform w));
      [apply _onUserInteraction_steps|split; [apply Step_refl|constructor]].
  - destruct (bool_decide _); simpl; (split; [|constructor]);
      [apply resume_step|apply Step_refl].
  - split; [frame|constructor].
Qed.

Lemma step_steps s j :
  Forall (task_steps Step) (suspended s) →
  Step (world s) (world (step s j))
  ∧ Forall (task_steps Step) (suspended (step s j)).
Proof.
  intros Hs. destruct j as [op|n o]; simpl.
  - destruct (exec_steps op (world s)) as [H1 H2].
    destruct (exec op (world s)) as [t w']. simpl in *.
    split; [done|]. apply Forall_app. split; [done|]. by constructor.
  - destruct (suspended s !! n) as [t|] eqn:Hn; [|split; [apply Step_refl|done]].
    pose proof (Forall_lookup_1 _ _ _ _ Hs Hn) as Ht.
    destruct t as [a| | |what k]; try (split; [apply Step_refl|done]).
    inversion Ht as [| | |what' k' Hk Hks]; subst.
    lazymatch goal with
    | H : existT _ _ = existT _ _ |- _ => clear H
    | _ => idtac
    end.
    specialize (Hk o (world s)). specialize (Hks o (world s)).
    destruct (k o (world s)) as [t' w']. simpl in *.
    split; [done|]. by apply Forall_insert.
Qed.

(** Whatever jobs run, in whatever order, the world they leave is related
    to the one they started from. *)
Lemma run_steps jobs : ∀ s,
  Forall (task_steps Step) (suspended s) →
  Step (world s) (world (run jobs s))
  ∧ Forall (task_steps Step) (suspended (run jobs s)).
Proof.
  induction jobs as [|j jobs IH]; intros s Hs; simpl.
  - split; [apply Step_refl|done].
  - destruct (step_steps s j Hs) as [H1 H2].
    destruct (IH _ H2) as [H3 H4]. split; [|done]. by eapply Step_trans.
Qed.
End Jobs.

(* ================================================================== *)
(** * The audio engine: statements *)
(* ================================================================== *)

Section Resume.
Import Js WebAudioEngine AudioSpec.

(** While a resume promise is cached, [resume()] hands it back and does
    nothing else: no second [audioContext.resume()]. *)
Lemma resume_cached w p :
  _resumePromise (engine w) = Some p → resume w = (Returned (Some p), w).
Proof. intros Hp. unfold resume. by rewrite Hp. Qed.

(** With nothing cached, [resume()] calls [audioContext.resume()] once and
    caches the promise, but its own promise is resolved with [undefined]. *)
Lemma resume_uncached w :
  _resumePromise (engine w) = None →
  (resume w).1 = Returned None
  ∧ _resumePromise (engine (resume w).2) = Some (nextHandle (platform w))
  ∧ calls (platform (resume w).2)
    = calls (platform w)
        ++ [ContextResume (audioContext (engine w)) (nextHandle (platform w))].
Proof. intros Hp. unfold resume. by rewrite Hp. Qed.

(** C1: two calls of [resume()] on a new engine whose context is still
    suspended.  The first caches promise 1 but resolves with [undefined];
    the second resolves with the cached promise 1: the two calls do not
    hand back the same promise. *)
Theorem resume_first_call_misses_cached_promise :
  state sample_world = "suspended"
  ∧ (resume sample_world).1 = Returned None
  ∧ _resumePromise (engine (resume sample_world).2) = Some 1
  ∧ (resume (resume sample_world).2).1 = Returned (Some 1).
Proof. repeat split; reflexivity. Qed.
End Resume.

Section Volume.
Import Js WebAudioEngine AudioSpec.

(** C9: the volume getter reads [_volume]; the setter returns at once when
    the value is [===] to the stored one, leaving everything as it was;
    otherwise it assigns [_volume], assigns the volume of the main output
    when there is one, and nothing else. *)
Theorem volume_setter_frame value w :
  volume w = _volume (engine w)
  ∧ (strict_eq (_volume (engine w)) value = true → set_volume value w = w)
  ∧ (strict_eq (_volume (engine w)) value = false →
     volume (set_volume value w) = value
     ∧ match _mainOutput (engine w) with
       | None => set_volume value w = assign (with_volume value) w
       | Some output =>
           set_volume value w
           = emit (MainOutputSetVolume value)
               (assign (with_mainOutput (Some {| mo_volume := value |}))
                  (assign (with_volume value) w))
       end).
Proof.
  split; [done|]. unfold set_volume. split; intros ->; [done|].
  simpl. by destruct (_mainOutput (engine w)).
Qed.

Lemma volume_setter_frame_witness :
  strict_eq (_volume (engine sample_world)) 1%float = true
  ∧ set_volume 1%float sample_world = sample_world.
Proof.
  split; [reflexivity|].
  apply (proj1 (proj2 (volume_setter_frame 1%float sample_world))). reflexivity.
Defined.
End Volume.

Section UserInteractionStatement.
Import Js WebAudioEngine AudioSpec.

(** C8: with resume-on-interaction enabled, [_onUserInteraction] calls
    [audioContext.resume()] and waits for it; once that promise is
    fulfilled it calls [play()] on every instance then in the pending set,
    in insertion order, deletes each of them, and returns with the set
    empty and nothing else changed.  An instance handed to
    [startSoundInstanceOnNextUserInteraction] is in the pending set. *)
Theorem user_interaction_starts_pending_instances w :
  _resumeOnInteraction (engine w) = true →
  (∀ i, In i (elements (pending (startSoundInstanceOnNextUserInteraction i w))))
  ∧ ∃ k,
      _onUserInteraction w
      = (Awaiting (AwContextResume (nextHandle (platform w))) k, (context_resume w).2)
      ∧ calls (platform (context_resume w).2)
        = calls (platform w)
            ++ [ContextResume (audioContext (engine w)) (nextHandle (platform w))]
      ∧ ∀ v w',
          (k (Fulfilled v) w').1 = Returned tt
          ∧ (k (Fulfilled v) w').2 = drained w' (elements (pending w'))
          ∧ calls (platform (k (Fulfilled v) w').2)
            = calls (platform w') ++ map InstancePlay (elements (pending w'))
          ∧ elements (pending (k (Fulfilled v) w').2) = [].
Proof.
  intros Hon. split.
  - intros i. unfold pending. simpl. apply add_elem.
  - destruct (_onUserInteraction_enabled w Hon) as (k & Hk & Hf & _).
    exists k. split; [exact Hk|]. split; [done|].
    intros v w'. rewrite Hf. simpl. split; [done|]. split; [done|].
    split; [done|]. apply elements_replicate_None.
Qed.

Lemma user_interaction_starts_pending_instances_witness :
  let w := startSoundInstanceOnNextUserInteraction 9
             (startSoundInstanceOnNextUserInteraction 7 sample_world) in
  _resumeOnInteraction (engine w) = true
  ∧ ∃ k, _onUserInteraction w
         = (Awaiting (AwContextResume (nextHandle (platform w))) k,
            (context_resume w).2)
         ∧ calls (platform (k (Fulfilled None) w).2)
           = calls (platform w) ++ [InstancePlay 7; InstancePlay 9].
Proof.
  intros w. split; [reflexivity|].
  destruct (user_interaction_starts_pending_instances w eq_refl)
    as (_ & k & Hk & _ & Hrun).
  exists k. split; [exact Hk|].
  destruct (Hrun None w) as (_ & _ & Hcalls & _). exact Hcalls.
Defined.
End UserInteractionStatement.

Section Formats.
Import Js WebAudioEngine AudioSpec.

(** A settled format is answered from the sets: no probe, no write. *)
Lemma formatIsValid_cached f w :
  cached f w → formatIsValid f w = (answer f w, w).
Proof.
  unfold cached, answer, formatIsValid. intros Hc.
  destruct (bool_decide (f ∈ _validFormats (engine w))) eqn:Hv; [done|].
  destruct (bool_decide (f ∈ _invalidFormats (engine w))) eqn:Hi; [done|].
  apply bool_decide_eq_false in Hv, Hi.
  destruct Hc as [?|[?| ->]]; done.
Qed.

(** Any call settles its format, with the answer it gave. *)
Lemma formatIsValid_settles f w :
  cached f (formatIsValid f w).2
  ∧ answer f (formatIsValid f w).2 = (formatIsValid f w).1.
Proof.
  unfold cached, answer, formatIsValid.
  destruct (bool_decide (f ∈ _validFormats (engine w))) eqn:Hv.
  { simpl. rewrite Hv. apply bool_decide_eq_true in Hv. auto. }
  destruct (bool_decide (f ∈ _invalidFormats (engine w))) eqn:Hi.
  { simpl. rewrite Hv. apply bool_decide_eq_true in Hi. auto. }
  destruct (formatMimeTypeMap !! f) as [mimeType|] eqn:Hm.
  2:{ simpl. rewrite Hv. auto. }
  apply bool_decide_eq_false in Hv.
  simpl. destruct (String.eqb _ _); simpl.
  - split; [right; left; set_solver|]. by apply bool_decide_eq_false.
  - split; [left; set_solver|]. apply bool_decide_eq_true. set_solver.
Qed.

(** Once settled, a format stays settled with the same answer, whatever
    the engine does next. *)
Lemma Step_cached f w w' :
  Step w w' → cached f w → cached f w' ∧ answer f w' = answer f w.
Proof.
  intros [[HV HI HP] _] Hc. split.
  - destruct Hc as [?|[?|?]]; [left|right; left|right; right]; auto.
  - unfold answer.
    destruct (decide (f ∈ _validFormats (engine w))) as [Hv|Hv].
    + rewrite !bool_decide_eq_true_2; auto.
    + rewrite (bool_decide_eq_false_2 _ Hv). apply bool_decide_eq_false.
      intros Hv'. destruct (HP f Hv' Hv) as [Hi [m Hm]].
      destruct Hc as [?|[?|Hn]]; [done|done|]. by rewrite Hn in Hm.
Qed.

Lemma run_app jobs1 jobs2 s : run (jobs1 ++ jobs2) s = run jobs2 (run jobs1 s).
Proof. apply foldl_app. Qed.

(** From construction on, every job is a [Step]. *)
Lemma boot_steps options p jobs :
  Step (constructor options p) (world (run jobs (boot options p)))
  ∧ Forall (task_steps Step) (suspended (run jobs (boot options p))).
Proof. apply (run_steps jobs (boot options p)). constructor. Qed.

Lemma constructor_formats options p :
  _validFormats (engine (constructor options p)) = ∅
  ∧ _invalidFormats (engine (constructor options p)) = ∅.
Proof. unfold constructor. by destruct (Options.audioContext options). Qed.

(** Only formats of the MIME table are ever in the valid set. *)
Lemma valid_formats_in_table options p jobs f :
  f ∈ _validFormats (engine (world (run jobs (boot options p)))) →
  is_Some (formatMimeTypeMap !! f).
Proof.
  intros Hf. destruct (boot_steps options p jobs) as [[[_ _ HP] _] _].
  apply (HP f Hf). rewrite (proj1 (constructor_formats options p)). set_solver.
Qed.

(** A call either changes nothing or makes one probe and records its
    format in one of the two sets. *)
Lemma formatIsValid_probe f w :
  (formatIsValid f w).2 = w
  ∨ ∃ mimeType,
      formatMimeTypeMap !! f = Some mimeType
      ∧ calls (platform (formatIsValid f w).2)
        = calls (platform w) ++ [CanPlayType mimeType]
      ∧ (f ∈ _validFormats (engine (formatIsValid f w).2)
         ∨ f ∈ _invalidFormats (engine (formatIsValid f w).2)).
Proof.
  unfold formatIsValid.
  destruct (bool_decide (f ∈ _validFormats (engine w))); [by left|].
  destruct (bool_decide (f ∈ _invalidFormats (engine w))); [by left|].
  destruct (formatMimeTypeMap !! f) as [mimeType|]; [|by left].
  right. exists mimeType. split; [done|]. simpl.
  destruct (String.eqb _ _); simpl; (split; [done|]); [right|left]; set_solver.
Qed.

(** A call of [formatIsValid(format)] in any reachable state settles the
    format; after any further jobs a second call answers the same and
    changes nothing. *)
Lemma formatIsValid_stable options p jobs0 format jobs :
  let s0 := run jobs0 (boot options p) in
  let first := formatIsValid format (world s0) in
  let s1 := step s0 (Invoke (OpFormatIsValid format)) in
  let s2 := run jobs s1 in
  world s1 = first.2
  ∧ cached format first.2
  ∧ answer format first.2 = first.1
  ∧ Step first.2 (world s2)
  ∧ formatIsValid format (world s2) = (first.1, world s2).
Proof.
  intros s0 first s1 s2.
  destruct (boot_steps options p jobs0) as [_ Htasks]. fold s0 in Htasks.
  destruct (step_steps s0 (Invoke (OpFormatIsValid format)) Htasks) as [_ Htasks1].
  fold s1 in Htasks1.
  destruct (run_steps jobs s1 Htasks1) as [Hstep _]. fold s2 in Hstep.
  assert (H1 : world s1 = first.2) by done.
  destruct (formatIsValid_settles format (world s0)) as [Hc Ha].
  fold first in Hc, Ha. rewrite H1 in Hstep.
  destruct (Step_cached format _ _ Hstep Hc) as [Hc2 Ha2].
  repeat (split; [done|]).
  rewrite (formatIsValid_cached _ _ Hc2). by rewrite Ha2, Ha.
Qed.

(** C2: take the engine after any jobs, call [formatIsValid(format)], run
    any further jobs, and call it again.  The second call gives the answer
    of the first and changes nothing, so it does not probe.  The first call
    either changes nothing or makes one [canPlayType] probe and records the
    format in the valid or the invalid set; its answer is [true] exactly for
    a format it leaves in the valid set; and a format that is not in the
    MIME table is answered [false] without a probe. *)
Theorem formatIsValid_memoized options p jobs0 format jobs :
  let s0 := run jobs0 (boot options p) in
  let first := formatIsValid format (world s0) in
  let s1 := step s0 (Invoke (OpFormatIsValid format)) in
  let s2 := run jobs s1 in
  world s1 = first.2
  ∧ formatIsValid format (world s2) = (first.1, world s2)
  ∧ (first.2 = world s0
     ∨ ∃ mimeType,
         formatMimeTypeMap !! format = Some mimeType
         ∧ calls (platform first.2)
           = calls (platform (world s0)) ++ [CanPlayType mimeType]
         ∧ (format ∈ _validFormats (engine first.2)
            ∨ format ∈ _invalidFormats (engine first.2)))
  ∧ (first.1 = true ↔ format ∈ _validFormats (engine first.2))
  ∧ (first.1 = false →
     format ∈ _invalidFormats (engine first.2) ∨ formatMimeTypeMap !! format = None)
  ∧ (formatMimeTypeMap !! format = None → first = (false, world s0)).
Proof.
  intros s0 first s1 s2.
  destruct (formatIsValid_stable options p jobs0 format jobs)
    as (H1 & Hc & Ha & _ & H2).
  fold s0 first s1 s2 in H1, Hc, Ha, H2.
  split; [done|]. split; [done|]. split; [apply formatIsValid_probe|].
  unfold answer in Ha. split; [|split].
  - rewrite <- Ha. apply bool_decide_eq_true.
  - intros Hf. rewrite Hf in Ha. apply bool_decide_eq_false in Ha.
    destruct Hc as [?|[?|?]]; [done|by left|by right].
  - intros Hn. subst first.
    assert (Hnv : format ∉ _validFormats (engine (world s0))).
    { intros Hv. apply valid_formats_in_table in Hv as [m Hm]. by rewrite Hn in Hm. }
    unfold formatIsValid. rewrite (bool_decide_eq_false_2 _ Hnv), Hn.
    destruct (bool_decide (format ∈ _invalidFormats (engine (world s0)))); reflexivity.
Qed.

Lemma formatIsValid_memoized_witness :
  let w0 := world (boot Options.empty sample_platform) in
  let w1 := (formatIsValid "wav" w0).2 in
  formatIsValid "wav" w0 = (true, w1)
  ∧ calls (platform w1) = [NewAudioContext 0; CanPlayType "audio/wav"]
  ∧ formatIsValid "wav" (flagInvalidFormat "wav" w1)
    = (true, flagInvalidFormat "wav" w1)
  ∧ formatIsValid "xyz" w0 = (false, w0).
Proof.
  intros w0 w1.
  pose proof (formatIsValid_memoized Options.empty sample_platform [] "wav"
                [Invoke (OpFlagInvalidFormat "wav")]) as (_ & H2 & _).
  pose proof (formatIsValid_memoized Options.empty sample_platform [] "xyz" [])
    as (_ & _ & _ & _ & _ & H6).
  split; [vm_compute; reflexivity|]. split; [vm_compute; reflexivity|].
  split; [exact H2|]. apply H6. vm_compute. reflexivity.
Defined.

(** C10: once [formatIsValid(format)] has answered [true], the format is
    in the valid set, and however many jobs run afterwards, among them
    [flagInvalidFormat(format)], the flag is recorded in the invalid set but
    [formatIsValid(format)] still answers [true], from the valid set, which
    it consults first. *)
Theorem flagInvalidFormat_keeps_valid_answer options p jobs0 format jobs1 jobs2 :
  let s0 := run jobs0 (boot options p) in
  (formatIsValid format (world s0)).1 = true →
  let s1 := step s0 (Invoke (OpFormatIsValid format)) in
  let s2 := run (jobs1 ++ Invoke (OpFlagInvalidFormat format) :: jobs2) s1 in
  format ∈ _validFormats (engine (world s1))
  ∧ format ∈ _invalidFormats (engine (world s2))
  ∧ format ∈ _validFormats (engine (world s2))
  ∧ formatIsValid format (world s2) = (true, world s2).
Proof.
  intros s0 Htrue s1 s2.
  destruct (formatIsValid_stable options p jobs0 format
              (jobs1 ++ Invoke (OpFlagInvalidFormat format) :: jobs2))
    as (H1 & _ & Ha & [[HV _ _] _] & H2).
  fold s0 s1 s2 in H1, Ha, HV, H2. rewrite Htrue in H2, Ha.
  apply bool_decide_eq_true in Ha. rewrite <- H1 in Ha, HV.
  split; [done|]. split; [|split; [by apply HV|done]].
  destruct (boot_steps options p jobs0) as [_ Htasks]. fold s0 in Htasks.
  destruct (step_steps s0 (Invoke (OpFormatIsValid format)) Htasks) as [_ Htasks1].
  fold s1 in Htasks1.
  destruct (run_steps jobs1 s1 Htasks1) as [_ Htasks2].
  unfold s2. rewrite run_app. simpl.
  set (s := run jobs1 s1) in *.
  destruct (step_steps s (Invoke (OpFlagInvalidFormat format)) Htasks2)
    as [_ Htasks3].
  destruct (run_steps jobs2 _ Htasks3) as [[[_ HI _] _] _].
  apply HI. simpl. set_solver.
Qed.

Lemma flagInvalidFormat_keeps_valid_answer_witness :
  let w0 := world (boot Options.empty sample_platform) in
  let w1 := (formatIsValid "wav" w0).2 in
  (formatIsValid "wav" w0).1 = true
  ∧ formatIsValid "wav" (flagInvalidFormat "wav" w1)
    = (true, flagInvalidFormat "wav" w1).
Proof.
  intros w0 w1.
  assert (H0 : (formatIsValid "wav" w0).1 = true) by (vm_compute; reflexivity).
  split; [exact H0|].
  exact (proj2 (proj2 (proj2
    (flagInvalidFormat_keeps_valid_answer Options.empty sample_platform []
       "wav" [] [] H0)))).
Defined.
End Formats.

Section StateChange.
Import Js WebAudioEngine AudioSpec.

Lemma constructor_calls options p :
  ∃ prefix, calls (platform (constructor options p)) = calls p ++ prefix
            ∧ timers_ok false prefix = true
            ∧ seen_running false prefix = false
            ∧ _audioContextStarted (engine (constructor options p)) = false.
Proof.
  unfold constructor. destruct (Options.audioContext options); simpl.
  - exists []. by rewrite app_nil_r.
  - by eexists [_].
Qed.

(** C6: in the calls an engine makes from its construction on, whatever
    jobs run, every [setInterval] comes after a report of the running state
    by the state-change callback.  The callback itself: when the state is
    running, it clears the timer, sets [_audioContextStarted] and empties
    [_resumePromise]; when the state is suspended or interrupted, it sets
    the timer only if [_audioContextStarted] and [_resumeOnPause] hold, and
    then clears the current timer first; otherwise it only notifies. *)
Theorem resume_timer_only_after_running options p jobs w :
  (∃ new,
     calls (platform (world (run jobs (boot options p)))) = calls p ++ new
     ∧ scheduled_only_after_running new)
  ∧ (state w = "running" →
     let w' := _onAudioContextStateChange w in
     calls (platform w')
     = calls (platform w)
         ++ [ClearInterval (_resumeOnPauseTimerId (engine w));
             NotifyObservers "running"]
     ∧ intervals (platform w')
       = cleared (_resumeOnPauseTimerId (engine w)) (intervals (platform w))
     ∧ _audioContextStarted (engine w') = true
     ∧ _resumePromise (engine w') = None)
  ∧ (state w = "suspended" ∨ state w = "interrupted" →
     let w' := _onAudioContextStateChange w in
     let old := _resumeOnPauseTimerId (engine w) in
     let t := nextHandle (platform w) in
     if _audioContextStarted (engine w) && _resumeOnPause (engine w) then
       calls (platform w')
       = calls (platform w)
           ++ [ClearInterval old;
               SetInterval t (_resumeOnPauseRetryInterval (engine w));
               NotifyObservers (state w)]
       ∧ intervals (platform w') = cleared old (intervals (platform w)) ∪ {[t]}
       ∧ _resumeOnPauseTimerId (engine w') = Some t
     else w' = emit (NotifyObservers (state w)) w).
Proof.
  split; [|split].
  - destruct (boot_steps options p jobs) as [[_ [(new & Hc & Hok & _)]] _].
    destruct (constructor_calls options p) as (prefix & Hp & Hpok & Hseen & Hs).
    exists (prefix ++ new). rewrite Hc, Hp, app_assoc. split; [done|].
    apply timers_ok_scheduled. rewrite timers_ok_app, Hpok, Hseen. simpl.
    by rewrite Hs in Hok.
  - intros Hs. cbv zeta. rewrite (_onAudioContextStateChange_running w Hs).
    destruct (_resumeOnPauseTimerId (engine w)); simpl;
      by rewrite <- !app_assoc.
  - intros Hs. cbv zeta. rewrite (_onAudioContextStateChange_paused w Hs).
    destruct (_audioContextStarted (engine w) && _resumeOnPause (engine w)); [|done].
    destruct (_resumeOnPauseTimerId (engine w)); simpl;
      by rewrite <- !app_assoc.
Qed.

(** A run in which the context starts and is then suspended by the
    browser: the timer is set, after the running state was reported. *)
Example suspended_after_running_sets_timer :
  calls (platform (world (run [Invoke (OpInit None);
                               Invoke (BrowserContextState "running");
                               Invoke (BrowserContextState "suspended")]
                            (boot Options.empty sample_platform))))
  = [NewAudioContext 0;
     AddEventListener Document "click";
     AddEventListener (Context 0) "statechange";
     CreateMainAudioOutputAsync;
     ClearInterval None;
     NotifyObservers "running";
     ClearInterval None;
     SetInterval 1 1000%float;
     NotifyObservers "suspended"].
Proof. vm_compute. reflexivity. Qed.

(** The same run without the start: no timer. *)
Example suspended_before_running_sets_no_timer :
  calls (platform (world (run [Invoke (OpInit None);
                               Invoke (BrowserContextState "suspended")]
                            (boot Options.empty sample_platform))))
  = [NewAudioContext 0;
     AddEventListener Document "click";
     AddEventListener (Context 0) "statechange";
     CreateMainAudioOutputAsync;
     NotifyObservers "suspended"].
Proof. vm_compute. reflexivity. Qed.

Lemma resume_timer_only_after_running_witness :
  let w := world (run [Invoke (OpInit None); Invoke (BrowserContextState "running")]
                    (boot Options.empty sample_platform)) in
  state w = "running"
  ∧ _audioContextStarted (engine (_onAudioContextStateChange w)) = true.
Proof.
  intros w.
  assert (Hs : state w = "running") by (vm_compute; reflexivity).
  split; [exact Hs|].
  exact (proj1 (proj2 (proj2 (proj1 (proj2 (resume_timer_only_after_running
                           Options.empty sample_platform [] w)) Hs)))).
Defined.
End StateChange.

Section Scenarios.
Import Js WebAudioEngine AudioSpec.

(** An engine is created and both of its awaits are fulfilled. *)
Example creation_scenario :
  let s := run [Invoke (OpInit None);
                Settle 0 (Fulfilled (Some {| mo_volume := 0%float |}));
                Settle 0 (Fulfilled None)]
             (boot Options.empty sample_platform) in
  isReadyPromise (engine (world s)) = Resolved
  ∧ _mainOutput (engine (world s)) = Some {| mo_volume := 1%float |}
  ∧ suspended s = [Returned tt].
Proof. vm_compute. repeat split; reflexivity. Qed.

(** The main output is never delivered: the engine does not become ready. *)
Example rejected_creation_scenario :
  let s := run [Invoke (OpInit None); Settle 0 Rejected]
             (boot Options.empty sample_platform) in
  isReadyPromise (engine (world s)) = Pending ∧ suspended s = [Threw].
Proof. vm_compute. repeat split; reflexivity. Qed.

(** Two instances wait for a click (one of them is registered twice); the
    click resumes the context and, once that is done, starts both. *)
Example click_scenario :
  let s := run [Invoke (OpInit None);
                Invoke (OpStartSoundInstanceOnNextUserInteraction 7);
                Invoke (OpStartSoundInstanceOnNextUserInteraction 9);
                Invoke (OpStartSoundInstanceOnNextUserInteraction 7);
                Invoke BrowserClick;
                Settle 4 (Fulfilled None)]
             (boot Options.empty sample_platform) in
  calls (platform (world s))
  = [NewAudioContext 0;
     AddEventListener Document "click";
     AddEventListener (Context 0) "statechange";
     CreateMainAudioOutputAsync;
     ContextResume 0 1;
     InstancePlay 7;
     InstancePlay 9]
  ∧ elements (pending (world s)) = [].
Proof. vm_compute. repeat split; reflexivity. Qed.

(** The volume is set before the main output exists and is handed to it
    when it arrives. *)
Example volume_scenario :
  let s := run [Invoke (OpInit None);
                Invoke (OpSetVolume 0.5%float);
                Settle 0 (Fulfilled (Some {| mo_volume := 1%float |}))]
             (boot Options.empty sample_platform) in
  _mainOutput (engine (world s)) = Some {| mo_volume := 0.5%float |}.
Proof. vm_compute. reflexivity. Qed.
End Scenarios.

Section Creation.
Import Js WebAudioEngine AudioSpec.

(** C7: creating an engine from options without an audio context.  The
    constructor makes a new context.  [init] then registers its listeners
    and asks for the main output; when that promise is fulfilled it stores
    the output, sets its volume and asks for the default bus; when that
    promise is fulfilled it resolves the readiness promise and returns.
    A rejection at either await ends [init] without resolving.  Run without
    interruption, the calls are exactly the seven listed, the one to the
    resolver last, and the readiness promise is pending until then. *)
Theorem engine_ready_after_init options p :
  options ≫= Options.audioContext = None →
  let h := nextHandle p in
  let created := CreateAudioEngineAsync options p in
  audioContext (engine created.2) = h
  ∧ contextState (platform created.2) !! h = Some "suspended"
  ∧ calls (platform created.2)
    = calls p ++ [NewAudioContext h;
                  AddEventListener Document "click";
                  AddEventListener (Context h) "statechange";
                  CreateMainAudioOutputAsync]
  ∧ isReadyPromise (engine created.2) = Pending
  ∧ (∃ k1, created.1 = Awaiting AwMainAudioOutput k1
      ∧ ∀ w1, k1 Rejected w1 = (Threw, w1)
        ∧ ∀ output, ∃ k2 w1',
            k1 (Fulfilled (Some output)) w1 = (Awaiting AwMainAudioBus k2, w1')
            ∧ calls (platform w1')
              = calls (platform w1)
                  ++ [MainOutputSetVolume (_volume (engine w1));
                      CreateMainAudioBusAsync "default"]
            ∧ _mainOutput (engine w1') = Some {| mo_volume := _volume (engine w1) |}
            ∧ isReadyPromise (engine w1') = isReadyPromise (engine w1)
            ∧ ∀ w2, k2 Rejected w2 = (Threw, w2)
              ∧ ∀ v, k2 (Fulfilled v) w2 = (Returned tt, _resolveIsReadyPromise w2))
  ∧ (∀ output,
       isReadyPromise
         (engine (drive [Fulfilled (Some output)] created.1 created.2).2) = Pending)
  ∧ (∀ output v,
       let done := drive [Fulfilled (Some output); Fulfilled v] created.1 created.2 in
       done.1 = Returned tt
       ∧ isReadyPromise (engine done.2) = Resolved
       ∧ calls (platform done.2)
         = calls p ++ [NewAudioContext h;
                       AddEventListener Document "click";
                       AddEventListener (Context h) "statechange";
                       CreateMainAudioOutputAsync;
                       MainOutputSetVolume 1%float;
                       CreateMainAudioBusAsync "default";
                       ResolveIsReadyPromise]).
Proof.
  intros Hctx h created.
  assert (Hc : Options.audioContext (default Options.empty options) = None).
  { destruct options as [o|]; [exact Hctx|done]. }
  unfold created, CreateAudioEngineAsync, constructor. rewrite Hc.
  simpl. rewrite <- !app_assoc. simpl.
  split; [done|]. split; [apply lookup_insert_eq|]. split; [done|].
  split; [done|]. split; [|split].
  - eexists. split; [reflexivity|]. intros w1. split; [done|].
    intros output. eexists _, _. split; [reflexivity|]. simpl.
    rewrite <- !app_assoc. split; [done|]. split; [done|]. split; [done|].
    intros w2. split; [done|]. intros v. reflexivity.
  - intros output. reflexivity.
  - intros output v. simpl. rewrite <- ?app_assoc. done.
Qed.

Lemma engine_ready_after_init_witness :
  None ≫= Options.audioContext = None
  ∧ isReadyPromise
      (engine (drive [Fulfilled (Some {| mo_volume := 0%float |}); Fulfilled None]
                 (CreateAudioEngineAsync None sample_platform).1
                 (CreateAudioEngineAsync None sample_platform).2).2) = Resolved.
Proof.
  split; [reflexivity|].
  destruct (engine_ready_after_init None sample_platform eq_refl)
    as (_ & _ & _ & _ & _ & _ & Hdone).
  exact (proj1 (proj2 (Hdone {| mo_volume := 0%float |} None))).
Defined.
End Creation.

(* ================================================================== *)
(** * The spatial blur pass: statements *)
(* ================================================================== *)

Section BlurPass.
Import Js IblShadowsSpatialBlurPass BlurSpec.
#[local] Open Scope string_scope.

(** C3: [isReady()] is [true] exactly when the output post-process is ready
    and the debug post-process, if it has been created, is ready too; so it
    is [false] whenever the output post-process is not ready. *)
Theorem isReady_spec scene s :
  (isReady scene s = true ↔
     postProcessIsReady scene (_outputPP (pass s)) = true
     ∧ ∀ debug, _debugPassPP (pass s) = Some debug →
                postProcessIsReady scene debug = true)
  ∧ (postProcessIsReady scene (_outputPP (pass s)) = false →
     isReady scene s = false).
Proof.
  unfold isReady. split.
  - rewrite andb_true_iff, negb_true_iff.
    destruct (_debugPassPP (pass s)) as [debug|].
    + rewrite negb_false_iff. split.
      * intros [Ho Hd]. split; [done|]. by intros ? [= <-].
      * intros [Ho Hd]. split; [done|]. by apply Hd.
    + split; intros [Ho _]; (split; [done|]); [intros ? [=]|done].
  - by intros ->.
Qed.

Lemma isReady_spec_witness :
  let s := (getDebugPassPP loading_scene sample_pass).2 in
  postProcessIsReady loading_scene (_outputPP (pass s)) = false
  ∧ postProcessIsReady loading_scene 1 = true
  ∧ _debugPassPP (pass s) = Some 1
  ∧ isReady loading_scene s = false.
Proof.
  intros s.
  assert (Hout : postProcessIsReady loading_scene (_outputPP (pass s)) = false)
    by reflexivity.
  split; [exact Hout|]. split; [reflexivity|]. split; [reflexivity|].
  exact (proj2 (isReady_spec loading_scene s) Hout).
Defined.

(** *** The debug post-process *)

Lemma getDebugPassPP_first scene s :
  _debugPassPP (pass s) = None →
  ∃ debug,
    getDebugPassPP scene s
    = (Some (nextId s),
       {| pass := with_debugPassPP (Some (nextId s)) (pass s);
          postProcesses := <[nextId s := debug]> (postProcesses s);
          nextId := S (nextId s) |})
    ∧ fragmentUrl debug = "iblShadowDebug"
    ∧ name debug = _debugPassName (pass s)
    ∧ autoClear debug = false
    ∧ onApply debug = Some DebugOnApply.
Proof.
  intros Hd. unfold getDebugPassPP, _createDebugPass. rewrite Hd. simpl.
  eexists. split.
  - f_equal. unfold update. simpl. f_equal.
    rewrite !alter_insert_eq. reflexivity.
  - done.
Qed.

Lemma getDebugPassPP_again scene s debug :
  _debugPassPP (pass s) = Some debug → getDebugPassPP scene s = (Some debug, s).
Proof. intros Hd. unfold getDebugPassPP. rewrite Hd. simpl. by rewrite Hd. Qed.

(** Apart from the first [getDebugPassPP()], no call assigns
    [_debugPassPP] or allocates a post-process. *)
Lemma exec_debug s c :
  _debugPassPP (pass (exec s c))
  = match _debugPassPP (pass s) with
    | Some debug => Some debug
    | None => if is_debug_request c.2 then Some (nextId s) else None
    end
  ∧ nextId (exec s c)
    = match _debugPassPP (pass s) with
      | Some _ => nextId s
      | None => if is_debug_request c.2 then S (nextId s) else nextId s
      end.
Proof.
  destruct c as [scene op].
  destruct (_debugPassPP (pass s)) as [debug|] eqn:Hd; destruct op; simpl;
    rewrite ?Hd; try done.
  - unfold dispose. simpl. by rewrite Hd.
  - unfold _createDebugPass. by rewrite Hd.
  - unfold dispose. simpl. by rewrite Hd.
Qed.

Lemma run_debug cs : ∀ s,
  _debugPassPP (pass (run cs s))
  = match _debugPassPP (pass s) with
    | Some debug => Some debug
    | None => if requested cs then Some (nextId s) else None
    end
  ∧ nextId (run cs s)
    = match _debugPassPP (pass s) with
      | Some _ => nextId s
      | None => if requested cs then S (nextId s) else nextId s
      end.
Proof.
  induction cs as [|c cs IH]; intros s; simpl.
  - by destruct (_debugPassPP (pass s)).
  - destruct (IH (exec s c)) as [IH1 IH2]. rewrite IH1, IH2.
    destruct (exec_debug s c) as [-> ->].
    destruct (_debugPassPP (pass s)); [done|].
    by destruct (is_debug_request c.2).
Qed.

Lemma constructor_debug scene store next :
  _debugPassPP (pass (constructor scene store next)) = None
  ∧ nextId (constructor scene store next) = S next
  ∧ _outputPP (pass (constructor scene store next)) = next.
Proof. done. Qed.

(** C4: a new pass has no debug post-process.  After any calls, it has one
    exactly if [getDebugPassPP()] was among them, and the pass has then
    allocated one post-process more than at construction, otherwise none.
    A call of [getDebugPassPP()] when there is none allocates one
    post-process, running the debug shader, and returns it; a call when
    there is one returns that one and changes nothing; and after a call,
    whatever is called next, [getDebugPassPP()] returns the same
    post-process again. *)
Theorem debug_pass_created_lazily scene0 store next cs scene :
  let s0 := constructor scene0 store next in
  let s := run cs s0 in
  _debugPassPP (pass s0) = None
  ∧ (is_Some (_debugPassPP (pass s)) ↔ requested cs = true)
  ∧ nextId s = (if requested cs then S (nextId s0) else nextId s0)
  ∧ (_debugPassPP (pass s) = None →
     ∃ debug,
       getDebugPassPP scene s
       = (Some (nextId s),
          {| pass := with_debugPassPP (Some (nextId s)) (pass s);
             postProcesses := <[nextId s := debug]> (postProcesses s);
             nextId := S (nextId s) |})
       ∧ fragmentUrl debug = "iblShadowDebug")
  ∧ (∀ debug, _debugPassPP (pass s) = Some debug →
              getDebugPassPP scene s = (Some debug, s))
  ∧ (∀ cs' scene',
       let s' := run cs' (getDebugPassPP scene s).2 in
       is_Some (getDebugPassPP scene s).1
       ∧ getDebugPassPP scene' s' = ((getDebugPassPP scene s).1, s')).
Proof.
  intros s0 s.
  destruct (run_debug cs s0) as [Hd Hn]. fold s in Hd, Hn.
  change (_debugPassPP (pass s0)) with (@None PostProcessId) in Hd, Hn.
  split; [done|]. split; [|split; [|split; [|split]]].
  - rewrite Hd. destruct (requested cs); split; intros H; done.
  - done.
  - intros Hnone. destruct (getDebugPassPP_first scene s Hnone) as (pp & ? & ? & _).
    by exists pp.
  - intros debug. apply getDebugPassPP_again.
  - intros cs' scene' s'.
    assert (Hfirst : ∃ debug, (getDebugPassPP scene s).1 = Some debug
                     ∧ _debugPassPP (pass (getDebugPassPP scene s).2) = Some debug).
    { destruct (_debugPassPP (pass s)) as [debug|] eqn:Hs.
      - exists debug. by rewrite (getDebugPassPP_again _ _ _ Hs).
      - destruct (getDebugPassPP_first scene s Hs) as (pp & -> & _). by eexists. }
    destruct Hfirst as (debug & Hr & Hf). rewrite Hr. split; [by eexists|].
    apply getDebugPassPP_again.
    destruct (run_debug cs' (getDebugPassPP scene s).2) as [Hd' _].
    fold s' in Hd'. by rewrite Hf in Hd'.
Qed.

Lemma debug_pass_created_lazily_witness :
  let s := run [(sample_scene, OpSetWorldScale 2%float)] sample_pass in
  _debugPassPP (pass s) = None
  ∧ (getDebugPassPP sample_scene s).1 = Some 1
  ∧ (getDebugPassPP sample_scene (getDebugPassPP sample_scene s).2).1 = Some 1.
Proof.
  intros s.
  destruct (debug_pass_created_lazily sample_scene ∅ 0
              [(sample_scene, OpSetWorldScale 2%float)] sample_scene)
    as (_ & _ & _ & Hfirst & _ & Hagain).
  fold sample_pass in Hfirst, Hagain. fold s in Hfirst, Hagain.
  assert (Hnone : _debugPassPP (pass s) = None) by reflexivity.
  split; [exact Hnone|].
  destruct (Hfirst Hnone) as (debug & Hcall & _).
  split; [by rewrite Hcall|].
  destruct (Hagain [] sample_scene) as [_ Hsame].
  change (getDebugPassPP sample_scene (getDebugPassPP sample_scene s).2
          = ((getDebugPassPP sample_scene s).1, (getDebugPassPP sample_scene s).2))
    in Hsame.
  rewrite Hsame. by rewrite Hcall.
Defined.

(** *** Binding before a draw *)

Lemma update_keeps_onApply i f s j :
  (∀ pp, onApply (f pp) = onApply pp) →
  postProcesses (update i f s) !! j ≫= onApply = postProcesses s !! j ≫= onApply.
Proof.
  intros Hf. unfold update. simpl.
  destruct (decide (i = j)) as [->|Hne].
  - rewrite lookup_alter_eq. destruct (postProcesses s !! j); simpl; [apply Hf|done].
  - by rewrite lookup_alter_ne.
Qed.

Lemma exec_output_installed s c : output_installed s → output_installed (exec s c).
Proof.
  intros [Ho Hlt]. destruct c as [scene op]. destruct op; try done.
  - simpl. unfold getDebugPassPP.
    destruct (_debugPassPP (pass s)) eqn:Hd; simpl; [done|].
    unfold _createDebugPass. rewrite Hd. split; simpl; [|lia].
    rewrite !lookup_alter_ne, lookup_insert_ne by lia. done.
  - simpl. unfold dispose.
    change (_debugPassPP (pass (update (_outputPP (pass s)) (with_disposed true) s)))
      with (_debugPassPP (pass s)).
    split.
    + destruct (_debugPassPP (pass s));
        rewrite !update_keeps_onApply by done; done.
    + by destruct (_debugPassPP (pass s)).
Qed.

Lemma run_output_installed cs : ∀ s, output_installed s → output_installed (run cs s).
Proof.
  induction cs as [|c cs IH]; intros s Hs; [done|].
  simpl. apply IH. by apply exec_output_installed.
Qed.

Lemma constructor_output_installed scene store next :
  output_installed (constructor scene store next).
Proof.
  split; simpl; [|lia]. by rewrite !lookup_alter_eq, lookup_insert_eq.
Qed.

(** C5: before every draw of the output post-process, after whatever calls
    were made on the pass, [onApply] runs [_updatePostProcess]: it sets
    [blurParameters] to (1, world scale, 0, 0) and, if the scene has a
    prepass renderer, sets the world-normal sampler exactly when its index
    is at least 0 and the linear-depth sampler exactly when its index is at
    least 0, to the texture at that index.  With a negative index the
    sampler is not set and the function still returns normally. *)
Theorem blur_pass_binds_before_draw scene0 store next cs scene :
  let s := run cs (constructor scene0 store next) in
  let blurParameters :=
    SetVector4 "blurParameters"
      {| x := 1%float; y := _worldScale (pass s); z := 0%float; w := 0%float |} in
  apply (_outputPP (pass s)) scene s = _updatePostProcess scene s
  ∧ match prePassRenderer scene with
    | None => _updatePostProcess scene s = [blurParameters]
    | Some r =>
        let wnormalIndex :=
          getIndex r (Constants.PREPASS_WORLD_NORMAL_TEXTURE_TYPE (constants scene)) in
        let depthIndex :=
          getIndex r (Constants.PREPASS_DEPTH_TEXTURE_TYPE (constants scene)) in
        _updatePostProcess scene s
        = blurParameters
            :: (if (0 <=? wnormalIndex)%Z
                then [SetTexture "worldNormalSampler"
                        (textures r !! Z.to_nat wnormalIndex)]
                else [])
            ++ (if (0 <=? depthIndex)%Z
                then [SetTexture "linearDepthSampler"
                        (textures r !! Z.to_nat depthIndex)]
                else [])
        ∧ ((wnormalIndex < 0)%Z →
           ∀ t, ¬ In (SetTexture "worldNormalSampler" t) (_updatePostProcess scene s))
        ∧ ((depthIndex < 0)%Z →
           ∀ t, ¬ In (SetTexture "linearDepthSampler" t) (_updatePostProcess scene s))
    end.
Proof.
  intros s blurParameters. split.
  - destruct (run_output_installed cs _
                (constructor_output_installed scene0 store next)) as [Ho _].
    fold s in Ho. unfold apply. by rewrite Ho.
  - unfold _updatePostProcess. destruct (prePassRenderer scene) as [r|]; [|done].
    cbv zeta.
    set (wn := getIndex r _). set (d := getIndex r _).
    destruct (0 <=? wn)%Z eqn:Hwn, (0 <=? d)%Z eqn:Hd; simpl;
      (split; [done|]); split; intros Hneg t Hin;
      try (apply Z.leb_le in Hwn; lia); try (apply Z.leb_le in Hd; lia);
      simpl in Hin; intuition discriminate.
Qed.

Lemma blur_pass_binds_before_draw_witness :
  (getIndex sample_renderer 8 < 0)%Z
  ∧ apply (_outputPP (pass sample_pass)) sample_scene sample_pass
    = [SetVector4 "blurParameters"
         {| x := 1%float; y := 1%float; z := 0%float; w := 0%float |};
       SetTexture "linearDepthSampler" (Some 40)]
  ∧ ∀ t, ¬ In (SetTexture "worldNormalSampler" t)
             (_updatePostProcess sample_scene sample_pass).
Proof.
  assert (Hneg : (getIndex sample_renderer 8 < 0)%Z) by reflexivity.
  split; [exact Hneg|].
  destruct (blur_pass_binds_before_draw sample_scene ∅ 0 [] sample_scene)
    as [Happly (Hcalls & Hwn & _)].
  split; [|exact (Hwn Hneg)].
  etransitivity; [exact Happly|]. exact Hcalls.
Defined.
End BlurPass.


(* ================================================================== *)
(** * The audio engine: what every run keeps *)
(* ================================================================== *)

Section Relations.
Import Js WebAudioEngine AudioSpec.
Variable R : World → World → Prop.
Hypothesis R_refl : ∀ w, R w w.
Hypothesis R_trans : ∀ w1 w2 w3, R w1 w2 → R w2 w3 → R w1 w3.

Lemma await_call_rel {A B} (callee : Task A) (rest : A → World → Task B * World) :
  task_steps R callee →
  (∀ a w, R w (rest a w).2 ∧ task_steps R (rest a w).1) →
  ∀ w, R w (await_call callee rest w).2
       ∧ task_steps R (await_call callee rest w).1.
Proof.
  intros Hc Hrest. induction Hc as [a| | |what k Hk Hks IH]; intros w; simpl.
  - apply Hrest.
  - split; [apply R_refl|constructor].
  - split; [apply R_refl|constructor].
  - split; [apply R_refl|]. constructor.
    + intros o w'. specialize (Hk o w'). specialize (IH o w').
      destruct (k o w') as [c w'']. simpl in *.
      eapply R_trans; [exact Hk|]. apply IH.
    + intros o w'. specialize (IH o w').
      destruct (k o w') as [c w'']. simpl in *. apply IH.
Qed.

Hypothesis R_exec : ∀ op w, R w (exec op w).2 ∧ task_steps R (exec op w).1.

Lemma step_rel s j :
  Forall (task_steps R) (suspended s) →
  R (world s) (world (step s j)) ∧ Forall (task_steps R) (suspended (step s j)).
Proof.
  intros Hs. destruct j as [op|n o]; simpl.
  - destruct (R_exec op (world s)) as [H1 H2].
    destruct (exec op (world s)) as [t w']. simpl in *.
    split; [done|]. apply Forall_app. split; [done|]. by constructor.
  - destruct (suspended s !! n) as [t|] eqn:Hn; [|split; [apply R_refl|done]].
    pose proof (Forall_lookup_1 _ _ _ _ Hs Hn) as Ht.
    destruct t as [a| | |what k]; try (split; [apply R_refl|done]).
    inversion Ht as [| | |what' k' Hk Hks]; subst.
    specialize (Hk o (world s)). specialize (Hks o (world s)).
    destruct (k o (world s)) as [t' w']. simpl in *.
    split; [done|]. by apply Forall_insert.
Qed.

Lemma run_rel jobs : ∀ s,
  Forall (task_steps R) (suspended s) →
  R (world s) (world (run jobs s))
  ∧ Forall (task_steps R) (suspended (run jobs s)).
Proof.
  induction jobs as [|j jobs IH]; intros s Hs; simpl.
  - split; [apply R_refl|done].
  - destruct (step_rel s j Hs) as [H1 H2].
    destruct (IH _ H2) as [H3 H4]. split; [|done]. by eapply R_trans.
Qed.
End Relations.

Section KeepsFacts.
Import Js WebAudioEngine AudioSpec AudioInvariants.

Lemma Keeps_refl w : Keeps w w.
Proof.
  split; try done. exists []. by rewrite app_nil_r.
Qed.

Lemma Keeps_trans w1 w2 w3 : Keeps w1 w2 → Keeps w2 w3 → Keeps w1 w3.
Proof.
  intros [C1 R1 S1 T1 V1 P1 (n1 & L1 & N1)] [C2 R2 S2 T2 V2 P2 (n2 & L2 & N2)].
  split; auto.
  - by rewrite C2.
  - exists (n1 ++ n2). rewrite L2, L1, app_assoc. split; [done|].
    by rewrite forallb_app, N1, N2.
Qed.

(** A job that may resolve the readiness promise, write the volume and
    change the pending set, and leaves the context, the timers and
    [_audioContextStarted] alone. *)
Lemma Keeps_soft w w' new :
  audioContext (engine w') = audioContext (engine w) →
  (isReadyPromise (engine w) = Resolved → isReadyPromise (engine w') = Resolved) →
  _audioContextStarted (engine w') = _audioContextStarted (engine w) →
  intervals (platform w') = intervals (platform w) →
  _resumeOnPauseTimerId (engine w') = _resumeOnPauseTimerId (engine w) →
  (volume_mirrored w → volume_mirrored w') →
  (pending_nodup w → pending_nodup w') →
  calls (platform w') = calls (platform w) ++ new →
  forallb (λ c, negb (is_new_context c)) new = true →
  Keeps w w'.
Proof.
  intros HC HR HS HI HT HV HP HL HN. split; try done.
  - by rewrite HS.
  - intros others Ho t. rewrite HI, HT. apply Ho.
  - by exists new.
Qed.

(** A job that leaves all of that alone. *)
Lemma Keeps_frame w w' new :
  audioContext (engine w') = audioContext (engine w) →
  isReadyPromise (engine w') = isReadyPromise (engine w) →
  _audioContextStarted (engine w') = _audioContextStarted (engine w) →
  intervals (platform w') = intervals (platform w) →
  _resumeOnPauseTimerId (engine w') = _resumeOnPauseTimerId (engine w) →
  _mainOutput (engine w') = _mainOutput (engine w) →
  _volume (engine w') = _volume (engine w) →
  pending w' = pending w →
  calls (platform w') = calls (platform w) ++ new →
  forallb (λ c, negb (is_new_context c)) new = true →
  Keeps w w'.
Proof.
  intros HC HR HS HI HT HM HV HP HL HN.
  apply (Keeps_soft w w' new); try done.
  - by rewrite HR.
  - unfold volume_mirrored, mainOutput, volume. by rewrite HM, HV.
  - unfold pending_nodup. by rewrite HP.
Qed.
End KeepsFacts.

(** Closes [Keeps w w'] when [w'] is [w] with calls logged and with fields
    assigned that [Keeps] does not speak about. *)
Ltac keep :=
  eapply Keeps_frame;
  [ reflexivity | reflexivity | reflexivity | reflexivity | reflexivity
  | reflexivity | reflexivity | reflexivity
  | simpl; rewrite <- ?app_assoc;
    first [ reflexivity | symmetry; apply app_nil_r ]
  | reflexivity ].

Section KeepsJobs.
Import Js WebAudioEngine AudioSpec AudioInvariants.

Lemma has_false_not_elem {T} `{EqDecision T} (x : T) s :
  Js.has x s = false → x ∉ Js.elements s.
Proof.
  unfold Js.has, Js.elements. induction s as [|[y|] s IH]; simpl.
  - intros _. apply not_elem_of_nil.
  - intros [Hy Hs]%orb_false_iff. apply bool_decide_eq_false in Hy.
    rewrite not_elem_of_cons. split; [congruence|by apply IH].
  - apply IH.
Qed.

Lemma NoDup_elements_add {T} `{EqDecision T} (x : T) s :
  NoDup (Js.elements s) → NoDup (Js.elements (Js.add x s)).
Proof.
  intros Hs. unfold Js.add. destruct (Js.has x s) eqn:Hh; [done|].
  rewrite elements_app. simpl. apply NoDup_app. split; [done|].
  split; [|apply NoDup_singleton].
  intros y Hy ->%list_elem_of_singleton. by apply has_false_not_elem in Hh.
Qed.

Lemma set_volume_keeps value w : Keeps w (set_volume value w).
Proof.
  unfold set_volume. destruct (strict_eq _ _); [apply Keeps_refl|].
  simpl. destruct (_mainOutput (engine w)) eqn:Hm.
  - eapply (Keeps_soft _ _ [_]); try done.
    intros _ output. unfold mainOutput, volume. simpl. by intros [= <-].
  - eapply (Keeps_soft _ _ []); try done; [|by rewrite app_nil_r].
    intros _ output. unfold mainOutput. simpl. by rewrite Hm.
Qed.

Lemma resume_keeps w : Keeps w (resume w).2.
Proof.
  unfold resume. destruct (_resumePromise (engine w)); [apply Keeps_refl|keep].
Qed.

Lemma formatIsValid_keeps format w : Keeps w (formatIsValid format w).2.
Proof.
  unfold formatIsValid.
  destruct (bool_decide _); [apply Keeps_refl|].
  destruct (bool_decide _); [apply Keeps_refl|].
  destruct (formatMimeTypeMap !! format); [|apply Keeps_refl].
  simpl. destruct (String.eqb _ _); keep.
Qed.

Lemma startSoundInstanceOnNextUserInteraction_keeps i w :
  Keeps w (startSoundInstanceOnNextUserInteraction i w).
Proof.
  eapply (Keeps_soft _ _ []); try done; [|by rewrite app_nil_r].
  unfold pending_nodup, pending. simpl. apply NoDup_elements_add.
Qed.

Lemma forallb_not_new_context_plays plays :
  forallb (λ c, negb (is_new_context c)) (map InstancePlay plays) = true.
Proof. induction plays; simpl; auto. Qed.

Lemma drained_keeps w plays : Keeps w (drained w plays).
Proof.
  eapply (Keeps_soft _ _ (map InstancePlay plays)); try done.
  - intros _. unfold pending_nodup. rewrite elements_drained. apply NoDup_nil_2.
  - apply forallb_not_new_context_plays.
Qed.

Lemma _onUserInteraction_keeps w :
  Keeps w (_onUserInteraction w).2 ∧ task_steps Keeps (_onUserInteraction w).1.
Proof.
  destruct (_resumeOnInteraction (engine w)) eqn:Hon.
  - destruct (_onUserInteraction_enabled w Hon) as (k & -> & Hf & Hr). simpl.
    split; [keep|]. constructor.
    + intros [v|] w'; rewrite ?Hf, ?Hr; simpl;
        [apply drained_keeps|apply Keeps_refl].
    + intros [v|] w'; rewrite ?Hf, ?Hr; constructor.
  - unfold _onUserInteraction. rewrite Hon. split; [apply Keeps_refl|constructor].
Qed.

Lemma _initAudioContext_keeps w :
  Keeps w (_initAudioContext w).2 ∧ task_steps Keeps (_initAudioContext w).1.
Proof.
  split; [keep|]. simpl. constructor.
  - intros [output|] w'; [|apply Keeps_refl].
    destruct output as [output|]; simpl.
    + eapply (Keeps_soft _ _ [_; _]); try done.
      * intros _ o. unfold mainOutput, volume. simpl. by intros [= <-].
      * simpl. by rewrite <- app_assoc.
      * reflexivity.
    + eapply (Keeps_soft _ _ []); try done; try reflexivity;
        try (by simpl; rewrite app_nil_r).
  - intros [output|] w'; [|constructor].
    destruct output as [output|]; simpl; constructor.
    + intros [v|] w''; apply Keeps_refl.
    + intros [v|] w''; constructor.
Qed.

Lemma _resolveIsReadyPromise_keeps w : Keeps w (_resolveIsReadyPromise w).
Proof. eapply (Keeps_soft _ _ [_]); done. Qed.

Lemma init_keeps options w :
  Keeps w (init options w).2 ∧ task_steps Keeps (init options w).1.
Proof.
  unfold init.
  match goal with |- context [_initAudioContext ?w0] => set (w1 := w0) end.
  assert (H1 : Keeps w w1) by (unfold w1; keep).
  destruct (_initAudioContext_keeps w1) as [H2 H3].
  destruct (_initAudioContext w1) as [callee w2]. simpl in H2, H3.
  destruct (await_call_rel Keeps Keeps_refl Keeps_trans callee
              (λ _ w, (Returned tt, _resolveIsReadyPromise w)) H3) with (w := w2)
    as [H4 H5].
  - intros _ w'. split; [apply _resolveIsReadyPromise_keeps|constructor].
  - split; [|done]. eapply Keeps_trans; [exact H1|]. by eapply Keeps_trans.
Qed.

Lemma _onAudioContextStateChange_keeps w : Keeps w (_onAudioContextStateChange w).
Proof.
  destruct (decide (state w = "running")) as [Hr|Hr].
  { rewrite (_onAudioContextStateChange_running w Hr).
    destruct (_resumeOnPauseTimerId (engine w)) as [old|] eqn:Hold.
    - split; try done.
      + intros others Ho t. simpl. rewrite Hold.
        intros [Ht Hne]%elem_of_difference.
        specialize (Ho t Ht). by rewrite Hold in Ho.
      + exists [ClearInterval (Some old); NotifyObservers "running"].
        simpl. by rewrite <- app_assoc.
    - split; try done.
      exists [ClearInterval None; NotifyObservers "running"].
      simpl. by rewrite <- app_assoc. }
  destruct (decide (state w = "suspended" ∨ state w = "interrupted")) as [Hp|Hp].
  { rewrite (_onAudioContextStateChange_paused w Hp).
    destruct (_audioContextStarted (engine w) && _resumeOnPause (engine w));
      [|keep].
    destruct (_resumeOnPauseTimerId (engine w)) as [old|] eqn:Hold; simpl.
    - split; try done.
      + intros others Ho t. simpl.
        intros [[Ht Hne]%elem_of_difference| ->%elem_of_singleton]%elem_of_union;
          [|by right].
        destruct (Ho t Ht) as [?|Heq]; [by left|].
        rewrite Hold in Heq. injection Heq as ->. by destruct Hne; apply elem_of_singleton.
      + eexists [_; _; _]. simpl. by rewrite <- !app_assoc.
    - split; try done.
      + intros others Ho t. simpl.
        intros [Ht| ->%elem_of_singleton]%elem_of_union; [|by right].
        destruct (Ho t Ht) as [?|Heq]; [by left|]. by rewrite Hold in Heq.
      + eexists [_; _; _]. simpl. by rewrite <- !app_assoc. }
  rewrite _onAudioContextStateChange_other; [keep|done|tauto|tauto].
Qed.

Lemma exec_keeps op w : Keeps w (exec op w).2 ∧ task_steps Keeps (exec op w).1.
Proof.
  destruct op; simpl.
  - apply init_keeps.
  - split; [|constructor]. unfold dispose. destruct (negb _); keep.
  - split; [apply set_volume_keeps|constructor].
  - split; [keep|constructor].
  - split; [apply formatIsValid_keeps|constructor].
  - split; [keep|]. constructor.
    + intros [v|] w'; apply Keeps_refl.
    + intros [v|] w'; constructor.
  - split; [apply resume_keeps|constructor].
  - split; [keep|constructor].
  - split; [keep|constructor].
  - split; [keep|constructor].
  - split; [apply startSoundInstanceOnNextUserInteraction_keeps|constructor].
  - destruct (stateChangeListener (platform w)); simpl.
    + split; [|constructor].
      eapply Keeps_trans; [|apply _onAudioContextStateChange_keeps]. keep.
    + split; [keep|constructor].
  - destruct (clickListener (platform w));
      [apply _onUserInteraction_keeps|split; [apply Keeps_refl|constructor]].
  - destruct (bool_decide _); simpl; (split; [|constructor]);
      [apply resume_keeps|apply Keeps_refl].
  - split; [keep|constructor].
Qed.

(** From construction on, every job is a [Keeps] step. *)
Lemma boot_keeps options p jobs :
  Keeps (constructor options p) (world (run jobs (boot options p)))
  ∧ Forall (task_steps Keeps) (suspended (run jobs (boot options p))).
Proof.
  apply (run_rel Keeps Keeps_refl Keeps_trans exec_keeps jobs (boot options p)).
  constructor.
Qed.
End KeepsJobs.

Section Invariants.
Import Js WebAudioEngine AudioSpec AudioInvariants.

Lemma constructor_context options p :
  audioContext (engine (constructor options p))
  = default (nextHandle p) (Options.audioContext options)
  ∧ calls (platform (constructor options p))
    = calls p ++ match Options.audioContext options with
                 | Some _ => []
                 | None => [NewAudioContext (nextHandle p)]
                 end
  ∧ intervals (platform (constructor options p)) = intervals p
  ∧ engine (constructor options p)
    = fields (default (nextHandle p) (Options.audioContext options)).
Proof.
  unfold constructor. destruct (Options.audioContext options); simpl; [|done].
  by rewrite app_nil_r.
Qed.

(** X1: in every state an engine reaches, the main output, once there is
    one, has the volume the engine reports: [init] hands the current volume
    to the new main output and the setter writes both. *)
Theorem main_output_volume_follows_engine_volume options p jobs output :
  let w := world (run jobs (boot options p)) in
  mainOutput w = Some output → mo_volume output = volume w.
Proof.
  intros w. destruct (boot_keeps options p jobs) as [[_ _ _ _ HV _ _] _].
  apply HV. intros o. unfold mainOutput.
  by rewrite (proj2 (proj2 (proj2 (constructor_context options p)))).
Qed.

Lemma main_output_volume_follows_engine_volume_witness :
  let w := world (run [Invoke (OpInit None);
                       Invoke (OpSetVolume 0.5%float);
                       Settle 0 (Fulfilled (Some {| mo_volume := 1%float |}));
                       Invoke (OpSetVolume 0.25%float)]
                    (boot Options.empty sample_platform)) in
  mainOutput w = Some {| mo_volume := 0.25%float |}
  ∧ mo_volume {| mo_volume := 0.25%float |} = volume w.
Proof.
  intros w.
  assert (H : mainOutput w = Some {| mo_volume := 0.25%float |})
    by (vm_compute; reflexivity).
  split; [exact H|].
  exact (main_output_volume_follows_engine_volume Options.empty sample_platform
           _ _ H).
Defined.

(** X2: an engine has one audio context for life.  The constructor takes
    the context of the options, creating none, or creates one if the options
    have none; no job creates another or assigns [audioContext]. *)
Theorem engine_keeps_its_audio_context options p jobs :
  let w := world (run jobs (boot options p)) in
  audioContext (engine w) = default (nextHandle p) (Options.audioContext options)
  ∧ ∃ new,
      calls (platform w)
      = calls p
          ++ match Options.audioContext options with
             | Some _ => []
             | None => [NewAudioContext (nextHandle p)]
             end
          ++ new
      ∧ forallb (λ c, negb (is_new_context c)) new = true.
Proof.
  intros w. destruct (boot_keeps options p jobs) as [[HC _ _ _ _ _ (new & HL & HN)] _].
  destruct (constructor_context options p) as (Hc & Hl & _).
  fold w in HC, HL. split; [by rewrite HC|].
  exists new. by rewrite HL, Hl, <- app_assoc.
Qed.

(** X3: the engine never leaves two of its timers live.  Whatever jobs run,
    every live timer was live before the engine was constructed or is the
    one in [_resumeOnPauseTimerId]: the callback clears that one before it
    sets a new one. *)
Theorem at_most_one_resume_timer options p jobs t :
  let w := world (run jobs (boot options p)) in
  t ∈ intervals (platform w) →
  t ∈ intervals p ∨ _resumeOnPauseTimerId (engine w) = Some t.
Proof.
  intros w. destruct (boot_keeps options p jobs) as [[_ _ _ HT _ _ _] _].
  apply (HT (intervals p)). intros t'.
  rewrite (proj1 (proj2 (proj2 (constructor_context options p)))). by left.
Qed.

Lemma at_most_one_resume_timer_witness :
  let w := world (run [Invoke (OpInit None);
                       Invoke (BrowserContextState "running");
                       Invoke (BrowserContextState "suspended");
                       Invoke (BrowserContextState "interrupted")]
                    (boot Options.empty sample_platform)) in
  2 ∈ intervals (platform w)
  ∧ (2 ∈ intervals sample_platform ∨ _resumeOnPauseTimerId (engine w) = Some 2).
Proof.
  intros w.
  assert (H : 2 ∈ intervals (platform w)).
  { apply (bool_decide_unpack _). vm_compute. exact I. }
  split; [exact H|].
  exact (at_most_one_resume_timer Options.empty sample_platform _ 2 H).
Defined.

(** X4: once resolved, the readiness promise stays resolved, and once the
    context has been seen running, [_audioContextStarted] stays set,
    whatever jobs run afterwards. *)
Theorem ready_and_started_are_permanent options p jobs1 jobs2 :
  let s1 := run jobs1 (boot options p) in
  let s2 := run jobs2 s1 in
  (isReadyPromise (engine (world s1)) = Resolved →
   isReadyPromise (engine (world s2)) = Resolved)
  ∧ (_audioContextStarted (engine (world s1)) = true →
     _audioContextStarted (engine (world s2)) = true).
Proof.
  intros s1 s2. destruct (boot_keeps options p jobs1) as [_ Htasks].
  fold s1 in Htasks.
  destruct (run_rel Keeps Keeps_refl Keeps_trans exec_keeps jobs2 s1 Htasks)
    as [[_ HR HS _ _ _ _] _].
  by split.
Qed.

Lemma ready_and_started_are_permanent_witness :
  let s1 := run [Invoke (OpInit None);
                 Settle 0 (Fulfilled (Some {| mo_volume := 1%float |}));
                 Settle 0 (Fulfilled None)]
              (boot Options.empty sample_platform) in
  isReadyPromise (engine (world s1)) = Resolved
  ∧ isReadyPromise
      (engine (world (run [Invoke (OpInit None); Invoke OpDispose] s1))) = Resolved.
Proof.
  intros s1.
  assert (H : isReadyPromise (engine (world s1)) = Resolved) by reflexivity.
  split; [exact H|].
  exact (proj1 (ready_and_started_are_permanent Options.empty sample_platform
                  _ [Invoke (OpInit None); Invoke OpDispose]) H).
Defined.

Lemma has_add {T} `{EqDecision T} (x : T) s : Js.has x (Js.add x s) = true.
Proof.
  unfold Js.add. destruct (Js.has x s) eqn:Hh; [done|].
  unfold Js.has. rewrite existsb_app. simpl.
  by rewrite bool_decide_eq_true_2, orb_true_r.
Qed.

(** X5: no instance waits twice.  In every state an engine reaches the
    pending instances are pairwise different, so one click starts each of
    them once; and handing over an instance that already waits changes
    nothing. *)
Theorem pending_instances_wait_once options p jobs i :
  let w := world (run jobs (boot options p)) in
  NoDup (elements (pending w))
  ∧ startSoundInstanceOnNextUserInteraction i
      (startSoundInstanceOnNextUserInteraction i w)
    = startSoundInstanceOnNextUserInteraction i w.
Proof.
  intros w. split.
  - destruct (boot_keeps options p jobs) as [[_ _ _ _ _ HP _] _].
    apply HP. unfold pending_nodup, pending.
    rewrite (proj2 (proj2 (proj2 (constructor_context options p)))).
    apply NoDup_nil_2.
  - unfold startSoundInstanceOnNextUserInteraction, assign. simpl. f_equal.
    unfold Js.add at 1. by rewrite has_add.
Qed.
End Invariants.

Section Lifecycle.
Import Js WebAudioEngine AudioSpec AudioInvariants.

(** X6: [dispose()] detaches the engine from the browser.  It assigns no
    field; it closes the context unless its state is closed already; and
    afterwards a click or a change of the context state no longer reaches the
    engine: no call is made and no field changes. *)
Theorem dispose_detaches_the_engine w s :
  let w' := dispose w in
  let c := audioContext (engine w) in
  engine w' = engine w
  ∧ calls (platform w')
    = calls (platform w)
        ++ SuperDispose
        :: (if String.eqb (state w) "closed" then [] else [ContextClose c])
        ++ [RemoveEventListener Document "click";
            RemoveEventListener (Context c) "statechange"]
  ∧ exec BrowserClick w' = (Returned tt, w')
  ∧ (exec (BrowserContextState s) w').1 = Returned tt
  ∧ engine (exec (BrowserContextState s) w').2 = engine w
  ∧ calls (platform (exec (BrowserContextState s) w').2) = calls (platform w').
Proof.
  intros w' c. unfold w', dispose.
  change (state (emit SuperDispose w)) with (state w).
  destruct (String.eqb (state w) "closed"); simpl;
    rewrite <- ?app_assoc; repeat split; reflexivity.
Qed.

(** X7: [dispose()] does not clear the resume-on-pause timer.  If the
    engine's timer is live when the engine is disposed, it is live
    afterwards, and its next tick still calls [audioContext.resume()]. *)
Theorem dispose_leaves_resume_timer_live w t :
  _resumeOnPauseTimerId (engine w) = Some t →
  t ∈ intervals (platform w) →
  _resumePromise (engine w) = None →
  let w' := dispose w in
  t ∈ intervals (platform w')
  ∧ calls (platform (exec (BrowserTimer t) w').2)
    = calls (platform w')
        ++ [ContextResume (audioContext (engine w)) (nextHandle (platform w))].
Proof.
  intros _ Ht Hp w'.
  assert (Hi : intervals (platform w') = intervals (platform w)).
  { unfold w', dispose. by destruct (negb _). }
  assert (He : engine w' = engine w).
  { unfold w', dispose. by destruct (negb _). }
  assert (Hn : nextHandle (platform w') = nextHandle (platform w)).
  { unfold w', dispose. by destruct (negb _). }
  clearbody w'. split; [by rewrite Hi|].
  unfold exec. rewrite Hi, (bool_decide_eq_true_2 _ Ht).
  unfold finished, resumeOnPauseTimer, resume. rewrite He, Hp. simpl.
  by rewrite He, Hn.
Qed.

Lemma dispose_leaves_resume_timer_live_witness :
  let w := world (run [Invoke (OpInit None);
                       Invoke (BrowserContextState "running");
                       Invoke (BrowserContextState "suspended")]
                    (boot Options.empty sample_platform)) in
  _resumeOnPauseTimerId (engine w) = Some 1
  ∧ 1 ∈ intervals (platform (dispose w)).
Proof.
  intros w.
  assert (H1 : _resumeOnPauseTimerId (engine w) = Some 1) by reflexivity.
  assert (H2 : 1 ∈ intervals (platform w)).
  { apply (bool_decide_unpack _). vm_compute. exact I. }
  assert (H3 : _resumePromise (engine w) = None) by reflexivity.
  split; [exact H1|].
  exact (proj1 (dispose_leaves_resume_timer_live w 1 H1 H2 H3)).
Defined.

Lemma world_step_invoke s op :
  world (step s (Invoke op)) = (exec op (world s)).2.
Proof. simpl. by destruct (exec op (world s)). Qed.

Lemma resumeOnPauseTimer_idempotent w :
  resumeOnPauseTimer (resumeOnPauseTimer w) = resumeOnPauseTimer w.
Proof.
  unfold resumeOnPauseTimer, resume.
  destruct (_resumePromise (engine w)) eqn:Hp; simpl; by rewrite ?Hp.
Qed.

(** X8: the resume-on-pause timer asks the context to resume once.  However
    often the timer fires, [audioContext.resume()] is called by the first
    tick only, and by none if a resume promise is cached already; the later
    ticks change nothing until a running report empties [_resumePromise]. *)
Theorem resume_timer_retries_once n w :
  ticks (S n) w = resumeOnPauseTimer w
  ∧ calls (platform (ticks (S n) w))
    = calls (platform w)
        ++ match _resumePromise (engine w) with
           | Some _ => []
           | None => [ContextResume (audioContext (engine w)) (nextHandle (platform w))]
           end.
Proof.
  assert (Hn : ticks (S n) w = resumeOnPauseTimer w).
  { induction n as [|n IH]; [done|].
    change (ticks (S (S n)) w)
      with (ticks (S n) (resumeOnPauseTimer w)).
    clear IH. revert w. induction n as [|n IH]; intros w.
    - apply resumeOnPauseTimer_idempotent.
    - change (ticks (S (S n)) (resumeOnPauseTimer w))
        with (ticks (S n) (resumeOnPauseTimer (resumeOnPauseTimer w))).
      rewrite resumeOnPauseTimer_idempotent. apply IH. }
  split; [exact Hn|]. rewrite Hn. unfold resumeOnPauseTimer, resume.
  destruct (_resumePromise (engine w)); simpl; by rewrite ?app_nil_r.
Qed.

(** X9: a pause by the application is undone by resume-on-pause.  On an
    initialised engine whose context has been running, with resume-on-pause
    enabled and no resume promise cached: [pause()] suspends the context, the
    state-change callback answers the suspension by setting the timer, and
    the first tick of the timer calls [audioContext.resume()]. *)
Theorem pause_is_undone_by_resume_on_pause w tasks :
  stateChangeListener (platform w) = true →
  _audioContextStarted (engine w) = true →
  _resumeOnPause (engine w) = true →
  _resumePromise (engine w) = None →
  let h := nextHandle (platform w) in
  let c := audioContext (engine w) in
  let s := run [Invoke OpPause;
                Invoke (BrowserContextState "suspended");
                Invoke (BrowserTimer (S h))]
             {| world := w; suspended := tasks |} in
  calls (platform (world s))
  = calls (platform w)
      ++ [ContextSuspend c h;
          ClearInterval (_resumeOnPauseTimerId (engine w));
          SetInterval (S h) (_resumeOnPauseRetryInterval (engine w));
          NotifyObservers "suspended";
          ContextResume c (S (S h))].
Proof.
  intros Hl Hs Hr Hp h c s. unfold s, run. cbn [foldl].
  rewrite !world_step_invoke. cbn [world].
  set (w1 := (exec OpPause w).2).
  assert (H1 : engine w1 = engine w) by reflexivity.
  assert (C1 : calls (platform w1) = calls (platform w) ++ [ContextSuspend c h])
    by reflexivity.
  assert (N1 : nextHandle (platform w1) = S h) by reflexivity.
  assert (L1 : stateChangeListener (platform w1) = true) by exact Hl.
  clearbody w1.
  unfold exec at 2. cbv zeta.
  match goal with
  | |- context [_onAudioContextStateChange ?w0] => set (w2 := w0)
  end.
  change (stateChangeListener (platform w2)) with (stateChangeListener (platform w1)).
  rewrite L1. unfold finished. cbn [snd].
  assert (Hstate : state w2 = "suspended").
  { unfold state, w2. simpl. by rewrite lookup_insert_eq. }
  rewrite (_onAudioContextStateChange_paused w2 (or_introl Hstate)), Hstate.
  change (engine w2) with (engine w1). rewrite H1, Hs, Hr. cbn [andb]. cbv zeta.
  change (nextHandle (platform w2)) with (nextHandle (platform w1)). rewrite N1.
  match goal with
  | |- context [exec _ ?w0] => set (w3 := w0)
  end.
  assert (NC : nextHandle (platform
                 (clearInterval (_resumeOnPauseTimerId (engine w)) w2)) = S h).
  { by destruct (_resumeOnPauseTimerId (engine w)). }
  assert (EC : engine (clearInterval (_resumeOnPauseTimerId (engine w)) w2)
               = engine w).
  { by destruct (_resumeOnPauseTimerId (engine w)). }
  assert (I3 : S h ∈ intervals (platform w3)).
  { unfold w3, setInterval, fresh. simpl. rewrite NC. apply elem_of_union. right.
    by apply elem_of_singleton. }
  assert (E3 : _resumePromise (engine w3) = None).
  { unfold w3, setInterval, fresh. simpl. by rewrite EC. }
  assert (N3 : nextHandle (platform w3) = S (S h)).
  { unfold w3, setInterval, fresh. simpl. by rewrite NC. }
  assert (A3 : audioContext (engine w3) = c).
  { unfold w3, setInterval, fresh. simpl. by rewrite EC. }
  assert (C3 : calls (platform w3)
               = calls (platform w)
                   ++ [ContextSuspend c h;
                       ClearInterval (_resumeOnPauseTimerId (engine w));
                       SetInterval (S h) (_resumeOnPauseRetryInterval (engine w));
                       NotifyObservers "suspended"]).
  { unfold w3, setInterval, fresh. simpl. rewrite NC.
    destruct (_resumeOnPauseTimerId (engine w)); simpl;
      by rewrite C1, <- !app_assoc. }
  clearbody w3. unfold exec. rewrite (bool_decide_eq_true_2 _ I3).
  unfold finished, resumeOnPauseTimer, resume. rewrite E3. simpl.
  by rewrite C3, N3, A3, <- app_assoc.
Qed.

Lemma pause_is_undone_by_resume_on_pause_witness :
  let w := world (run [Invoke (OpInit None);
                       Invoke (BrowserContextState "running")]
                    (boot Options.empty sample_platform)) in
  _audioContextStarted (engine w) = true
  ∧ calls (platform (world (run [Invoke OpPause;
                                 Invoke (BrowserContextState "suspended");
                                 Invoke (BrowserTimer 2)]
                              {| world := w; suspended := [] |})))
    = calls (platform w)
        ++ [ContextSuspend 0 1; ClearInterval None; SetInterval 2 1000%float;
            NotifyObservers "suspended"; ContextResume 0 3].
Proof.
  intros w.
  assert (H1 : _audioContextStarted (engine w) = true) by reflexivity.
  split; [exact H1|].
  exact (pause_is_undone_by_resume_on_pause w [] eq_refl H1 eq_refl eq_refl).
Defined.

(** X10: flagging a format that is not in the valid set settles it as
    invalid for good.  Whatever jobs run afterwards, [formatIsValid(format)]
    answers [false] from the invalid set, without a probe and without a
    write. *)
Theorem flagged_format_is_never_probed options p jobs0 format jobs :
  let s0 := run jobs0 (boot options p) in
  format ∉ _validFormats (engine (world s0)) →
  let s1 := step s0 (Invoke (OpFlagInvalidFormat format)) in
  let s2 := run jobs s1 in
  formatIsValid format (world s2) = (false, world s2).
Proof.
  intros s0 Hnv s1 s2.
  destruct (boot_steps options p jobs0) as [_ Htasks]. fold s0 in Htasks.
  destruct (step_steps s0 (Invoke (OpFlagInvalidFormat format)) Htasks)
    as [_ Htasks1].
  fold s1 in Htasks1.
  destruct (run_steps jobs s1 Htasks1) as [Hstep _]. fold s2 in Hstep.
  assert (Hc : cached format (world s1)).
  { right. left. simpl. set_solver. }
  destruct (Step_cached format _ _ Hstep Hc) as [Hc2 Ha2].
  rewrite (formatIsValid_cached _ _ Hc2), Ha2. f_equal.
  unfold answer. simpl. by apply bool_decide_eq_false.
Qed.

Lemma flagged_format_is_never_probed_witness :
  let w0 := world (boot Options.empty sample_platform) in
  ("wav" ∉ _validFormats (engine w0))
  ∧ formatIsValid "wav" (flagInvalidFormat "wav" w0)
    = (false, flagInvalidFormat "wav" w0).
Proof.
  intros w0.
  assert (H : "wav" ∉ _validFormats (engine w0)) by apply not_elem_of_empty.
  split; [exact H|].
  exact (flagged_format_is_never_probed Options.empty sample_platform [] "wav" [] H).
Defined.
End Lifecycle.


(* ================================================================== *)
(** * The spatial blur pass: what every sequence of calls keeps *)
(* ================================================================== *)

Section BlurRuns.
Import Js IblShadowsSpatialBlurPass BlurSpec BlurInvariants.
#[local] Open Scope string_scope.

Lemma run_snoc cs c s : run (cs ++ [c]) s = exec (run cs s) c.
Proof. unfold run. by rewrite foldl_app. Qed.

Lemma exec_worldScale s c :
  _worldScale (pass (exec s c)) = scale_after (_worldScale (pass s)) [c].
Proof.
  destruct c as [scene op]. destruct op; try done.
  - simpl. unfold getDebugPassPP, _createDebugPass.
    by destruct (_debugPassPP (pass s)).
  - simpl. unfold dispose. by destruct (_debugPassPP _).
Qed.

Lemma run_worldScale cs : ∀ s,
  _worldScale (pass (run cs s)) = scale_after (_worldScale (pass s)) cs.
Proof.
  induction cs as [|c cs IH]; intros s; [done|].
  simpl. rewrite IH. f_equal. apply exec_worldScale.
Qed.

Lemma exec_debugSizeParams s c :
  _debugSizeParams (pass (exec s c)) = params_after (_debugSizeParams (pass s)) [c].
Proof.
  destruct c as [scene op]. destruct op; try done.
  - simpl. unfold getDebugPassPP, _createDebugPass.
    by destruct (_debugPassPP (pass s)).
  - simpl. unfold dispose. by destruct (_debugPassPP _).
Qed.

Lemma run_debugSizeParams cs : ∀ s,
  _debugSizeParams (pass (run cs s)) = params_after (_debugSizeParams (pass s)) cs.
Proof.
  induction cs as [|c cs IH]; intros s; [done|].
  simpl. rewrite IH. f_equal. apply exec_debugSizeParams.
Qed.

Lemma exec_outputPP s c : _outputPP (pass (exec s c)) = _outputPP (pass s).
Proof.
  destruct c as [scene op]. destruct op; try done.
  - simpl. unfold getDebugPassPP, _createDebugPass.
    by destruct (_debugPassPP (pass s)).
  - simpl. unfold dispose. by destruct (_debugPassPP _).
Qed.

Lemma run_outputPP cs : ∀ s, _outputPP (pass (run cs s)) = _outputPP (pass s).
Proof.
  induction cs as [|c cs IH]; intros s; [done|].
  simpl. rewrite IH. apply exec_outputPP.
Qed.

Lemma exec_debug_installed s c :
  output_installed s → debug_installed s → debug_installed (exec s c).
Proof.
  intros [_ Hlt] Hd. destruct c as [scene op]. destruct op; try done.
  - simpl. unfold getDebugPassPP.
    destruct (_debugPassPP (pass s)) eqn:Hdbg; simpl; [done|].
    unfold _createDebugPass. rewrite Hdbg. intros d. simpl. intros [= <-].
    split; [lia|].
    by rewrite lookup_alter_eq, lookup_alter_eq, lookup_insert_eq.
  - simpl. unfold dispose.
    change (_debugPassPP (pass (update (_outputPP (pass s)) (with_disposed true) s)))
      with (_debugPassPP (pass s)).
    destruct (_debugPassPP (pass s)) as [d0|] eqn:Hdbg; intros d; simpl;
      rewrite ?Hdbg; [|done].
    intros [= <-]. destruct (Hd d0 Hdbg) as [Hr Ho]. split; [done|].
    change (postProcesses
              (update d0 (with_disposed true)
                 (update (_outputPP (pass s)) (with_disposed true) s)) !! d0
            ≫= onApply = Some DebugOnApply).
    by rewrite !update_keeps_onApply.
Qed.

Lemma run_installed cs : ∀ s,
  output_installed s → debug_installed s →
  output_installed (run cs s) ∧ debug_installed (run cs s).
Proof.
  induction cs as [|c cs IH]; intros s Ho Hd; [done|].
  simpl. apply IH; [by apply exec_output_installed|by apply exec_debug_installed].
Qed.

Lemma constructed_installed scene store next cs :
  output_installed (run cs (constructor scene store next))
  ∧ debug_installed (run cs (constructor scene store next)).
Proof.
  apply run_installed; [apply constructor_output_installed|]. by intros d.
Qed.

(** X11: the world scale that reaches the shader is the one of the last
    [setWorldScale], or 1 if there was none: before a draw of the output
    post-process the first call on the effect sets [blurParameters] to
    (1, that scale, 0, 0). *)
Theorem world_scale_last_write_wins scene0 store next cs scene :
  let s := run cs (constructor scene0 store next) in
  ∃ rest,
    apply (getPassPP s) scene s
    = SetVector4 "blurParameters"
        {| x := 1%float; y := scale_after 1%float cs; z := 0%float; w := 0%float |}
      :: rest.
Proof.
  intros s. destruct (constructed_installed scene0 store next cs) as [[Ho _] _].
  fold s in Ho. unfold apply, getPassPP. rewrite Ho.
  assert (Hs : _worldScale (pass s) = scale_after 1%float cs).
  { unfold s. by rewrite run_worldScale. }
  rewrite <- Hs. unfold _updatePostProcess.
  destruct (prePassRenderer scene) as [r|]; [|by eexists].
  cbv zeta. destruct (0 <=? _)%Z, (0 <=? _)%Z; by eexists.
Qed.

(** X12: the debug post-process draws the output of the blur.  Once
    created it is the post-process allocated right after the output
    post-process, never the output post-process itself; before each of its
    draws it binds [debugSampler] to the output of the output post-process
    and sets [sizeParams] to the rectangle of the last
    [setDebugDisplayParams], or to zeros if there was none. *)
Theorem debug_pass_displays_output scene0 store next cs scene d :
  let s := run cs (constructor scene0 store next) in
  _debugPassPP (pass s) = Some d →
  getPassPP s = next
  ∧ d = S next
  ∧ apply d scene s
    = [SetTextureFromPostProcessOutput "debugSampler" next;
       SetVector4 "sizeParams"
         (params_after {| x := 0%float; y := 0%float; z := 0%float; w := 0%float |} cs)].
Proof.
  intros s Hd.
  destruct (constructed_installed scene0 store next cs) as [_ Hi].
  fold s in Hi. destruct (Hi d Hd) as [_ Ho].
  assert (Hout : getPassPP s = next).
  { unfold getPassPP, s. by rewrite run_outputPP. }
  split; [exact Hout|]. split.
  - destruct (run_debug cs (constructor scene0 store next)) as [Hrd _].
    fold s in Hrd. rewrite Hd in Hrd. simpl in Hrd.
    destruct (requested cs); congruence.
  - unfold apply. rewrite Ho. unfold getPassPP in Hout. rewrite Hout.
    unfold s. by rewrite run_debugSizeParams.
Qed.

Lemma debug_pass_displays_output_witness :
  let s := run [(sample_scene,
                 OpSetDebugDisplayParams 0.5%float 0.5%float 0.25%float 0.25%float);
                (sample_scene, OpGetDebugPassPP)] sample_pass in
  _debugPassPP (pass s) = Some 1
  ∧ apply 1 sample_scene s
    = [SetTextureFromPostProcessOutput "debugSampler" 0;
       SetVector4 "sizeParams"
         {| x := 0.5%float; y := 0.5%float; z := 0.25%float; w := 0.25%float |}].
Proof.
  intros s.
  assert (H : _debugPassPP (pass s) = Some 1) by reflexivity.
  split; [exact H|].
  exact (proj2 (proj2 (debug_pass_displays_output sample_scene ∅ 0 _ sample_scene 1 H))).
Defined.

(** X13: [dispose()] disposes the post-processes of the pass and nothing
    else.  On a pass in any state it reaches, the output post-process and,
    if it exists, the debug post-process are disposed; every other
    post-process of the store is untouched; no field of the pass is
    assigned, so a later [getDebugPassPP()] returns the disposed debug
    post-process instead of creating a new one. *)
Theorem pass_dispose_marks_own_post_processes scene0 store next cs scene :
  let s := run cs (constructor scene0 store next) in
  let s' := dispose s in
  pass s' = pass s
  ∧ nextId s' = nextId s
  ∧ disposed <$> postProcesses s' !! getPassPP s = Some true
  ∧ (∀ d, _debugPassPP (pass s) = Some d →
          disposed <$> postProcesses s' !! d = Some true
          ∧ getDebugPassPP scene s' = (Some d, s'))
  ∧ (∀ j, j ≠ getPassPP s → _debugPassPP (pass s) ≠ Some j →
          postProcesses s' !! j = postProcesses s !! j).
Proof.
  intros s s'.
  destruct (constructed_installed scene0 store next cs) as [[Ho _] Hi].
  fold s in Ho, Hi.
  assert (Hin : is_Some (postProcesses s !! _outputPP (pass s))).
  { destruct (postProcesses s !! _outputPP (pass s)); [by eexists|done]. }
  destruct Hin as [pp Hpp].
  unfold s', dispose, getPassPP.
  change (_debugPassPP (pass (update (_outputPP (pass s)) (with_disposed true) s)))
    with (_debugPassPP (pass s)).
  destruct (_debugPassPP (pass s)) as [d0|] eqn:Hdbg.
  - destruct (Hi d0 Hdbg) as [Hr Hd0].
    assert (Hin : is_Some (postProcesses s !! d0)).
    { destruct (postProcesses s !! d0); [by eexists|done]. }
    destruct Hin as [dp Hdp].
    split; [done|]. split; [done|]. split; [|split].
    + unfold update. simpl. rewrite lookup_alter_ne by lia.
      by rewrite lookup_alter_eq, Hpp.
    + intros d [= <-]. split.
      * unfold update. simpl. rewrite lookup_alter_eq, lookup_alter_ne by lia.
        by rewrite Hdp.
      * by apply getDebugPassPP_again.
    + intros j Hj Hjd. unfold update. simpl.
      rewrite !lookup_alter_ne; [done|done|]. intros ->. by apply Hjd.
  - split; [done|]. split; [done|]. split; [|split].
    + unfold update. simpl. by rewrite lookup_alter_eq, Hpp.
    + by intros d.
    + intros j Hj _. unfold update. simpl. by rewrite lookup_alter_ne.
Qed.

Lemma pass_dispose_marks_own_post_processes_witness :
  let s := run [(sample_scene, OpGetDebugPassPP)] sample_pass in
  _debugPassPP (pass s) = Some 1
  ∧ disposed <$> postProcesses (dispose s) !! 1 = Some true
  ∧ getDebugPassPP sample_scene (dispose s) = (Some 1, dispose s).
Proof.
  intros s.
  assert (H : _debugPassPP (pass s) = Some 1) by reflexivity.
  split; [exact H|].
  destruct (pass_dispose_marks_own_post_processes sample_scene ∅ 0
              [(sample_scene, OpGetDebugPassPP)] sample_scene)
    as (_ & _ & _ & Hd & _).
  exact (Hd 1 H).
Defined.
End BlurRuns.

Section BlurEdges.
Import Js IblShadowsSpatialBlurPass BlurSpec BlurInvariants.
#[local] Open Scope string_scope.

(** X14: a sampler whose index is not negative is bound whether or not the
    render target has a texture at that index: to that texture if there is
    one, and to [undefined] if the index is past the end of [textures]. *)
Theorem texture_index_past_the_end_binds_undefined scene s r :
  prePassRenderer scene = Some r →
  let wnormalIndex :=
    getIndex r (Constants.PREPASS_WORLD_NORMAL_TEXTURE_TYPE (constants scene)) in
  let depthIndex :=
    getIndex r (Constants.PREPASS_DEPTH_TEXTURE_TYPE (constants scene)) in
  ((0 ≤ wnormalIndex)%Z →
   (∀ t, textures r !! Z.to_nat wnormalIndex = Some t →
         In (SetTexture "worldNormalSampler" (Some t)) (_updatePostProcess scene s))
   ∧ ((List.length (textures r) ≤ Z.to_nat wnormalIndex)%nat →
      In (SetTexture "worldNormalSampler" None) (_updatePostProcess scene s)))
  ∧ ((0 ≤ depthIndex)%Z →
     (∀ t, textures r !! Z.to_nat depthIndex = Some t →
           In (SetTexture "linearDepthSampler" (Some t)) (_updatePostProcess scene s))
     ∧ ((List.length (textures r) ≤ Z.to_nat depthIndex)%nat →
        In (SetTexture "linearDepthSampler" None) (_updatePostProcess scene s))).
Proof.
  intros Hr wn d. unfold _updatePostProcess. rewrite Hr. cbv zeta. fold wn d.
  split.
  - intros Hwn. apply Z.leb_le in Hwn. rewrite Hwn. split.
    + intros t Ht. rewrite Ht. destruct (0 <=? d)%Z; simpl; tauto.
    + intros Hlen. rewrite (lookup_ge_None_2 _ _ Hlen).
      destruct (0 <=? d)%Z; simpl; tauto.
  - intros Hd. apply Z.leb_le in Hd. rewrite Hd. split.
    + intros t Ht. rewrite Ht. apply in_or_app. right. by left.
    + intros Hlen. rewrite (lookup_ge_None_2 _ _ Hlen).
      apply in_or_app. right. by left.
Qed.

Lemma texture_index_past_the_end_binds_undefined_witness :
  let r := {| getIndex := λ type, 3%Z; textures := [40] |} in
  let scene := {| constants := sample_constants;
                  getRenderWidth := 640%float;
                  getRenderHeight := 480%float;
                  prePassRenderer := Some r;
                  postProcessIsReady := λ _, true |} in
  prePassRenderer scene = Some r
  ∧ (0 ≤ getIndex r 8)%Z
  ∧ (List.length (textures r) ≤ Z.to_nat (getIndex r 8))%nat
  ∧ In (SetTexture "worldNormalSampler" None) (_updatePostProcess scene sample_pass).
Proof.
  intros r scene.
  assert (H1 : prePassRenderer scene = Some r) by reflexivity.
  assert (H2 : (0 ≤ getIndex r 8)%Z) by (simpl; lia).
  assert (H3 : (List.length (textures r) ≤ Z.to_nat (getIndex r 8))%nat) by (simpl; lia).
  repeat (split; [assumption|]).
  exact (proj2 (proj1 (texture_index_past_the_end_binds_undefined
                         scene sample_pass r H1) H2) H3).
Defined.

Lemma exec_without_debugEnabled s c :
  without_debugEnabled (exec s c)
  = without_debugEnabled (exec (without_debugEnabled s) c).
Proof.
  destruct c as [scene op]. destruct op; try done.
  - simpl. unfold getDebugPassPP, _createDebugPass. simpl.
    by destruct (_debugPassPP (pass s)).
  - simpl. unfold dispose. simpl. by destruct (_debugPassPP (pass s)).
Qed.

Lemma run_without_debugEnabled cs : ∀ s1 s2,
  without_debugEnabled s1 = without_debugEnabled s2 →
  without_debugEnabled (run cs s1)
  = without_debugEnabled
      (run (filter (λ c, negb (sets_debugEnabled c.2)) cs) s2).
Proof.
  induction cs as [|c cs IH]; intros s1 s2 Heq; [done|].
  simpl. destruct (sets_debugEnabled c.2) eqn:Hc.
  - rewrite filter_cons_False by (rewrite Hc; simpl; tauto).
    apply IH. rewrite <- Heq. destruct c as [scene op]. by destruct op.
  - rewrite filter_cons_True by (by rewrite Hc).
    simpl. apply IH.
    by rewrite exec_without_debugEnabled, Heq, <- exec_without_debugEnabled.
Qed.

Lemma isReady_without_debugEnabled scene s :
  isReady scene (without_debugEnabled s) = isReady scene s.
Proof. done. Qed.

Lemma apply_without_debugEnabled i scene s :
  apply i scene (without_debugEnabled s) = apply i scene s.
Proof. done. Qed.

(** X15: the pass itself never reads [debugEnabled].  Leaving out every
    assignment of the flag from any sequence of calls gives, apart from the
    flag, the same pass and the same post-processes, hence the same
    readiness and the same effect calls before a draw. *)
Theorem debugEnabled_is_inert cs s scene i :
  let s1 := run cs s in
  let s2 := run (filter (λ c, negb (sets_debugEnabled c.2)) cs) s in
  without_debugEnabled s1 = without_debugEnabled s2
  ∧ isReady scene s1 = isReady scene s2
  ∧ apply i scene s1 = apply i scene s2.
Proof.
  intros s1 s2.
  assert (H : without_debugEnabled s1 = without_debugEnabled s2)
    by (by apply run_without_debugEnabled).
  split; [exact H|]. split.
  - by rewrite <- (isReady_without_debugEnabled scene s1), H.
  - by rewrite <- (apply_without_debugEnabled i scene s1), H.
Qed.

(** X16: how a call changes readiness.  The only call after which
    [isReady()] can answer differently in an unchanged scene is the
    [getDebugPassPP()] that creates the debug post-process: from then on the
    pass is ready only if the new post-process is ready too. *)
Theorem isReady_after_call scene s c :
  isReady scene (exec s c)
  = isReady scene s
    && match _debugPassPP (pass s) with
       | Some _ => true
       | None =>
           if is_debug_request c.2 then postProcessIsReady scene (nextId s) else true
       end.
Proof.
  unfold isReady. destruct (exec_debug s c) as [-> _].
  rewrite exec_outputPP.
  destruct (_debugPassPP (pass s)); [by rewrite andb_true_r|].
  destruct (is_debug_request c.2); simpl;
    by rewrite ?andb_true_r, ?negb_involutive.
Qed.
End BlurEdges.

Section InitOptions.
Import Js WebAudioEngine AudioSpec AudioInvariants.

(** X17: the options of [init] gate the two automatic resumes.  An absent
    option counts as [true].  After [init] with [resumeOnInteraction: false]
    a click makes no call and starts no pending instance; after [init] with
    [resumeOnPause: false] no change of the context state sets a timer. *)
Theorem init_options_gate_the_handlers options w s :
  let w1 := (init options w).2 in
  _resumeOnInteraction (engine w1)
  = default true (options ≫= Options.resumeOnInteraction)
  ∧ _resumeOnPause (engine w1) = default true (options ≫= Options.resumeOnPause)
  ∧ (options ≫= Options.resumeOnInteraction = Some false →
     exec BrowserClick w1 = (Returned tt, w1))
  ∧ (options ≫= Options.resumeOnPause = Some false →
     ∃ new,
       calls (platform (exec (BrowserContextState s) w1).2)
       = calls (platform w1) ++ new
       ∧ forallb sets_no_timer new = true
       ∧ intervals (platform (exec (BrowserContextState s) w1).2)
         ⊆ intervals (platform w1)).
Proof.
  intros w1. split; [done|]. split; [done|]. split.
  - intros Hoff. unfold exec.
    change (clickListener (platform w1)) with true. cbv iota.
    unfold _onUserInteraction.
    change (_resumeOnInteraction (engine w1))
      with (default true (options ≫= Options.resumeOnInteraction)).
    by rewrite Hoff.
  - intros Hoff. unfold exec. cbv zeta.
    match goal with
    | |- context [_onAudioContextStateChange ?w0] => set (w2 := w0)
    end.
    change (stateChangeListener (platform w2)) with true. cbv iota.
    unfold finished. cbn [snd].
    assert (Hp : _resumeOnPause (engine w2) = false).
    { change (_resumeOnPause (engine w2))
        with (default true (options ≫= Options.resumeOnPause)).
      by rewrite Hoff. }
    assert (Hc : calls (platform w2) = calls (platform w1)) by reflexivity.
    assert (Hi : intervals (platform w2) = intervals (platform w1)) by reflexivity.
    clearbody w2. rewrite <- Hc, <- Hi.
    destruct (decide (state w2 = "running")) as [Hr|Hr].
    { rewrite (_onAudioContextStateChange_running w2 Hr).
      exists [ClearInterval (_resumeOnPauseTimerId (engine w2));
              NotifyObservers "running"].
      destruct (_resumeOnPauseTimerId (engine w2)); simpl;
        rewrite <- app_assoc; (split; [done|]); (split; [done|]);
        first [done | by apply subseteq_difference_l]. }
    destruct (decide (state w2 = "suspended" ∨ state w2 = "interrupted")) as [Hs|Hs].
    { rewrite (_onAudioContextStateChange_paused w2 Hs), Hp, andb_false_r.
      by exists [NotifyObservers (state w2)]. }
    rewrite _onAudioContextStateChange_other; [|done|tauto|tauto].
    by exists [NotifyObservers (state w2)].
Qed.

Lemma init_options_gate_the_handlers_witness :
  let options := Some {| Options.audioContext := None;
                         Options.resumeOnInteraction := Some false;
                         Options.resumeOnPause := None;
                         Options.resumeOnPauseRetryInterval := None |} in
  let w1 := (init options (startSoundInstanceOnNextUserInteraction 7 sample_world)).2 in
  options ≫= Options.resumeOnInteraction = Some false
  ∧ exec BrowserClick w1 = (Returned tt, w1)
  ∧ elements (pending w1) = [7].
Proof.
  intros options w1.
  assert (H : options ≫= Options.resumeOnInteraction = Some false) by reflexivity.
  split; [exact H|]. split; [|reflexivity].
  exact (proj1 (proj2 (proj2 (init_options_gate_the_handlers options
                                (startSoundInstanceOnNextUserInteraction 7 sample_world)
                                "suspended"))) H).
Defined.
End InitOptions.

Section StalePromise.
Import Js WebAudioEngine AudioSpec AudioInvariants.

Lemma timer_ticks_with_cached_promise n t p : ∀ s,
  _resumePromise (engine (world s)) = Some p →
  world (run (replicate n (Invoke (BrowserTimer t))) s) = world s.
Proof.
  induction n as [|n IH]; intros s Hp; [done|].
  assert (Hw : world (step s (Invoke (BrowserTimer t))) = world s).
  { rewrite world_step_invoke. unfold exec.
    destruct (bool_decide _); [|done].
    unfold finished, resumeOnPauseTimer, resume. by rewrite Hp. }
  change (world (run (replicate n (Invoke (BrowserTimer t)))
                   (step s (Invoke (BrowserTimer t)))) = world s).
  rewrite IH; [done|]. by rewrite Hw.
Qed.

(** X18: a resume promise left in the cache stops the resume-on-pause
    timer from resuming.  [_resumePromise] is emptied only by a report of the
    running state, so a promise cached by a [resume()] made while the context
    was running is still there when the context is suspended later: the
    callback sets the timer, but however often it fires,
    [audioContext.resume()] is not called. *)
Theorem cached_resume_promise_blocks_retry w tasks p n :
  stateChangeListener (platform w) = true →
  _audioContextStarted (engine w) = true →
  _resumeOnPause (engine w) = true →
  _resumePromise (engine w) = Some p →
  let h := nextHandle (platform w) in
  let s := run (Invoke (BrowserContextState "suspended")
                :: replicate n (Invoke (BrowserTimer h)))
             {| world := w; suspended := tasks |} in
  h ∈ intervals (platform (world s))
  ∧ calls (platform (world s))
    = calls (platform w)
        ++ [ClearInterval (_resumeOnPauseTimerId (engine w));
            SetInterval h (_resumeOnPauseRetryInterval (engine w));
            NotifyObservers "suspended"].
Proof.
  intros Hl Hs Hr Hp h s. unfold s, run. cbn [foldl].
  fold (run (replicate n (Invoke (BrowserTimer h)))
          (step {| world := w; suspended := tasks |}
             (Invoke (BrowserContextState "suspended")))).
  set (s1 := step _ _).
  assert (Hw1 : world s1
                = (exec (BrowserContextState "suspended") w).2)
    by apply world_step_invoke.
  revert Hw1. unfold exec. cbv zeta.
  match goal with
  | |- context [_onAudioContextStateChange ?w0] => set (w2 := w0)
  end.
  change (stateChangeListener (platform w2)) with (stateChangeListener (platform w)).
  rewrite Hl. unfold finished. cbn [snd].
  assert (Hstate : state w2 = "suspended").
  { unfold state, w2. simpl. by rewrite lookup_insert_eq. }
  rewrite (_onAudioContextStateChange_paused w2 (or_introl Hstate)), Hstate.
  change (engine w2) with (engine w). rewrite Hs, Hr. cbn [andb]. cbv zeta.
  change (nextHandle (platform w2)) with h.
  intros Hw1.
  assert (Hp1 : _resumePromise (engine (world s1)) = Some p).
  { rewrite Hw1. unfold setInterval, fresh. simpl.
    by destruct (_resumeOnPauseTimerId (engine w)). }
  rewrite (timer_ticks_with_cached_promise n h p s1 Hp1), Hw1.
  unfold setInterval, fresh.
  destruct (_resumeOnPauseTimerId (engine w)); simpl; rewrite <- !app_assoc;
    (split; [|done]); apply elem_of_union; right; by apply elem_of_singleton.
Qed.

Lemma cached_resume_promise_blocks_retry_witness :
  let w := world (run [Invoke (OpInit None);
                       Invoke (BrowserContextState "running");
                       Invoke OpResume]
                    (boot Options.empty sample_platform)) in
  _resumePromise (engine w) = Some 1
  ∧ calls (platform (world (run [Invoke (BrowserContextState "suspended");
                                 Invoke (BrowserTimer 2);
                                 Invoke (BrowserTimer 2)]
                              {| world := w; suspended := [] |})))
    = calls (platform w)
        ++ [ClearInterval None; SetInterval 2 1000%float;
            NotifyObservers "suspended"].
Proof.
  intros w.
  assert (H : _resumePromise (engine w) = Some 1) by reflexivity.
  split; [exact H|].
  exact (proj2 (cached_resume_promise_blocks_retry w [] 1 2
                  eq_refl eq_refl eq_refl H)).
Defined.
End StalePromise.
